(** * Quorum policy evaluation and the replicated-log range read of coname

    A shallow embedding of [common/quorum.go] ([CheckQuorum], [ListQuorum])
    and of the [GetCommitted] contract of
    [keyserver/replication/replication.go], with the properties the
    specification states about them. *)

From stdpp Require Import base numbers list sets gmap fin_sets.

Local Open Scope N_scope.

(** ** Data model *)

Local Unset Elimination Schemes.

(** Modelled from the spec: the declaration of [proto.QuorumExpr] (generated
    protobuf code) is not part of the sources at hand; its logical schema is
    [threshold: uint64], [verifiers: list<uint64>],
    [subexpressions: list<QuorumExpr>], a finite tree. *)
Inductive QuorumExpr : Type :=
  mkQuorumExpr {
    Threshold : N;
    Verifiers : list N;
    Subexpressions : list QuorumExpr
  }.

Local Set Elimination Schemes.

(** Unsigned 64-bit arithmetic of the threshold counter. *)
Definition uint64_modulus : N := 2 ^ 64.

Definition in_uint64 (n : N) : Prop := n < uint64_modulus.

(** [remaining--] on an unsigned counter: 0 wraps to the largest value. *)
Definition uint64_dec (n : N) : N := (n + (uint64_modulus - 1)) mod uint64_modulus.

(** Thresholds that fit the field's type, at every node of the tree. *)
Fixpoint wf_expr (e : QuorumExpr) : Prop :=
  in_uint64 (Threshold e) ∧
  (fix wf_all (es : list QuorumExpr) : Prop :=
     match es with
     | [] => True
     | e' :: es' => wf_expr e' ∧ wf_all es'
     end) (Subexpressions e).

(** The presence set [have : map[uint64]struct{}] is a finite set of ids. *)
Abbreviation presence := (gset N).

(** ** CheckQuorum *)

(** Outcome of one of the two [for] loops of [CheckQuorum]: either the
    function has returned [true] from inside the loop, or the loop ran to its
    end and leaves the counter [remaining]. *)
Inductive loop_result : Type :=
  | Returned
  | Remaining (remaining : N).

(** [for _, verifier := range want.Verifiers { if _, yes := have[verifier];
    yes { if remaining--; remaining == 0 { return true } } }] *)
Fixpoint verifiers_loop (have : presence) (vs : list N) (remaining : N) : loop_result :=
  match vs with
  | [] => Remaining remaining
  | verifier :: vs' =>
      if bool_decide (verifier ∈ have) then
        let remaining := uint64_dec remaining in
        if remaining =? 0 then Returned else verifiers_loop have vs' remaining
      else verifiers_loop have vs' remaining
  end.

Fixpoint CheckQuorum (want : QuorumExpr) (have : presence) : bool :=
  let remaining := Threshold want in
  if remaining =? 0 then true
  else
    match verifiers_loop have (Verifiers want) remaining with
    | Returned => true
    | Remaining remaining =>
        (fix subexpressions_loop (es : list QuorumExpr) (remaining : N) : bool :=
           match es with
           | [] => false
           | e :: es' =>
               if CheckQuorum e have then
                 let remaining := uint64_dec remaining in
                 if remaining =? 0 then true else subexpressions_loop es' remaining
               else subexpressions_loop es' remaining
           end) (Subexpressions want) remaining
    end.

(** The same function instrumented with the accesses it makes: every lookup
    [have[verifier]] and every recursive call on a sub-expression is logged,
    in program order. *)
Inductive access : Type :=
  | Lookup (verifier : N)
  | Call (e : QuorumExpr).

Fixpoint verifiers_loop_trace (have : presence) (vs : list N) (remaining : N)
  : loop_result * list access :=
  match vs with
  | [] => (Remaining remaining, [])
  | verifier :: vs' =>
      if bool_decide (verifier ∈ have) then
        let remaining := uint64_dec remaining in
        if remaining =? 0 then (Returned, [Lookup verifier])
        else
          let '(r, tr) := verifiers_loop_trace have vs' remaining in
          (r, Lookup verifier :: tr)
      else
        let '(r, tr) := verifiers_loop_trace have vs' remaining in
        (r, Lookup verifier :: tr)
  end.

Fixpoint CheckQuorum_trace (want : QuorumExpr) (have : presence) : bool * list access :=
  let remaining := Threshold want in
  if remaining =? 0 then (true, [])
  else
    match verifiers_loop_trace have (Verifiers want) remaining with
    | (Returned, tr) => (true, tr)
    | (Remaining remaining, tr) =>
        let '(b, tr') :=
          (fix subexpressions_loop (es : list QuorumExpr) (remaining : N)
             : bool * list access :=
             match es with
             | [] => (false, [])
             | e :: es' =>
                 let '(yes, tre) := CheckQuorum_trace e have in
                 if yes then
                   let remaining := uint64_dec remaining in
                   if remaining =? 0 then (true, Call e :: tre)
                   else
                     let '(b, tr') := subexpressions_loop es' remaining in
                     (b, Call e :: tre ++ tr')
                 else
                   let '(b, tr') := subexpressions_loop es' remaining in
                   (b, Call e :: tre ++ tr')
             end) (Subexpressions want) remaining in
        (b, tr ++ tr')
    end.

(** *** Reference semantics of a threshold policy

    The definition the specification gives in words: an expression holds when
    the number of its verifiers that are present plus the number of its
    sub-expressions that hold is at least its threshold.  No counter, no
    early exit. *)
Definition count_present (have : presence) (vs : list N) : nat :=
  length (filter (λ v, v ∈ have) vs).

Definition count_true (bs : list bool) : nat :=
  length (filter (λ b, b = true) bs).

Fixpoint Satisfies_ref (e : QuorumExpr) (have : presence) : bool :=
  Threshold e <=?
    N.of_nat (count_present have (Verifiers e)) +
    N.of_nat (count_true (map (λ e', Satisfies_ref e' have) (Subexpressions e))).

(** The second loop of [CheckQuorum], run over the results the recursive
    calls have returned; used to state what the loop computes. *)
Fixpoint results_loop (results : list bool) (remaining : N) : bool :=
  match results with
  | [] => false
  | yes :: results' =>
      if yes then
        let remaining := uint64_dec remaining in
        if remaining =? 0 then true else results_loop results' remaining
      else results_loop results' remaining
  end.

(** ** ListQuorum *)

(** Go maps are references: the accumulator [out] is shared between the
    caller and all recursive calls.  The store maps the address of each
    allocated [map[uint64]struct{}] to its key set; [nil] is [None]. *)
Abbreviation loc := positive.
Abbreviation store := (gmap positive (gset N)).

(** [make(map[uint64]struct{}, n)]: a fresh, empty map (the capacity hint has
    no effect on the contents). *)
Definition make_map (h : store) : loc * store :=
  let l := fresh (dom h) in (l, <[l := ∅]> h).

(** [out[verifier] = struct{}{}] *)
Definition map_set (out : loc) (verifier : N) (h : store) : store :=
  alter (λ keys, {[verifier]} ∪ keys) out h.

Fixpoint ListQuorum (e : QuorumExpr) (out : option loc) (h : store) : loc * store :=
  let '(out, h) :=
    match out with
    | None => make_map h
    | Some l => (l, h)
    end in
  let h := foldl (λ h verifier, map_set out verifier h) h (Verifiers e) in
  let h :=
    (fix subexpressions_loop (es : list QuorumExpr) (h : store) : store :=
       match es with
       | [] => h
       | e' :: es' => subexpressions_loop es' (ListQuorum e' (Some out) h).2
       end) (Subexpressions e) h in
  (out, h).

(** A verifier identifier is mentioned by an expression when it occurs in the
    [Verifiers] list of the expression or of a sub-expression at any depth. *)
Inductive mentions : QuorumExpr → N → Prop :=
  | mentions_here e v :
      v ∈ Verifiers e → mentions e v
  | mentions_below e e' v :
      e' ∈ Subexpressions e → mentions e' v → mentions e v.

(** The keys one call adds to the accumulator, as a set: the computable
    counterpart of [mentions]. *)
Fixpoint listed (e : QuorumExpr) : gset N :=
  list_to_set (Verifiers e) ∪ ⋃ (map listed (Subexpressions e)).

(** ** GetCommitted *)

(** A log entry is an opaque byte payload; its slot index is implicit. *)
Abbreviation entry := (list Byte.byte).

Definition entry_size (e : entry) : N := N.of_nat (length e).

Definition total_size (es : list entry) : N :=
  foldr (λ e acc, entry_size e + acc) 0 es.

(** The committed part of the log a replica retains: the entries of slots
    [horizon], [horizon + 1], ... in order. *)
Record CommittedLog : Type :=
  mkCommittedLog {
    horizon : N;
    retained : list entry
  }.

Definition entry_at (log : CommittedLog) (index : N) : option entry :=
  if index <? horizon log then None
  else retained log !! N.to_nat (index - horizon log).

Inductive get_error : Type :=
  | RangeError.

(** Entries that follow the mandatory first one: each is added as long as the
    cumulative size, the first entry included, stays within [maxSize]. *)
Fixpoint add_within (maxSize : N) (cumulative : N) (es : list entry) : list entry :=
  match es with
  | [] => []
  | e :: es' =>
      if cumulative + entry_size e <=? maxSize
      then e :: add_within maxSize (cumulative + entry_size e) es'
      else []
  end.

(** Modelled from the spec: [LogReplicator.GetCommitted] is only declared, as
    an interface method, in [replication.go]; no implementation is part of
    the sources at hand.  Following the contract: a range read of the
    committed entries from [lo] up to but excluding [hi], which fails when
    [lo] is below the retained horizon or the range is invalid, always
    returns the first entry of the range when there is one, and then adds
    entries while the cumulative size does not exceed [maxSize]. *)
Definition GetCommitted (log : CommittedLog) (lo hi maxSize : N)
  : get_error + list entry :=
  if (lo <? horizon log) || (hi <? lo) then inl RangeError
  else
    match take (N.to_nat (hi - lo)) (drop (N.to_nat (lo - horizon log)) (retained log)) with
    | [] => inr []
    | first :: rest => inr (first :: add_within maxSize (entry_size first) rest)
    end.

(** A retained log used to exercise the contract: slots 2, 3 and 4. *)
Definition sample_log : CommittedLog :=
  mkCommittedLog 2 [[Byte.x01; Byte.x02]; [Byte.x03]; [Byte.x04; Byte.x05; Byte.x06]].

(** ** Wire format of Duration and Timestamp *)

Local Open Scope Z_scope.

(** Go's fixed-width integer types, as conversions on [Z].  [int] and [uint]
    are taken to be 64 bits wide, as on the platforms the server runs on. *)
Definition uint8 (z : Z) : Z := z mod 2 ^ 8.
Definition uint32 (z : Z) : Z := z mod 2 ^ 32.
Definition uint64 (z : Z) : Z := z mod 2 ^ 64.
Definition int32 (z : Z) : Z := (z + 2 ^ 31) mod 2 ^ 32 - 2 ^ 31.
Definition int64 (z : Z) : Z := (z + 2 ^ 63) mod 2 ^ 64 - 2 ^ 63.
Definition goint (z : Z) : Z := int64 z.
Definition gouint (z : Z) : Z := uint64 z.

(** [Duration] and [Timestamp] are declared with the same two fields,
    [Seconds int64] and [Nanos int32]; one record serves both. *)
Record Duration : Type :=
  mkDuration {
    Seconds : Z;
    Nanos : Z
  }.

Abbreviation Timestamp := Duration.

Definition valid_message (m : Duration) : Prop :=
  (- 2 ^ 63 ≤ Seconds m < 2 ^ 63) ∧ (- 2 ^ 31 ≤ Nanos m < 2 ^ 31).

(** A byte slice is a list of values in [0, 256). *)
Definition is_byte (b : Z) : Prop := 0 ≤ b < 256.

(** [data[i] = b]; [None] is the run-time panic of an index out of range. *)
Definition store_byte (data : list Z) (i : Z) (b : Z) : option (list Z) :=
  if bool_decide (0 ≤ i < Z.of_nat (length data))
  then Some (<[Z.to_nat i := b]> data)
  else None.

(** *** Sizes and encoders

    The functions [sov], [soz], [encodeVarint], [encodeFixed64],
    [encodeFixed32], [encodeVarintPopulate], [Size], [MarshalTo] and
    [Marshal] are generated twice, for [Duration] and for [Timestamp], with
    the same text up to the type name.  The loops over a [uint64] that is
    shifted right by 7 at each turn run at most ten times; that is the fuel
    of their embeddings. *)
Definition varint_turns : nat := 10.

(** [for { n++; x >>= 7; if x == 0 { break } }] *)
Fixpoint sov_loop (fuel : nat) (x : Z) (n : Z) : Z :=
  match fuel with
  | O => n
  | S fuel =>
      let n := n + 1 in
      let x := Z.shiftr x 7 in
      if x =? 0 then n else sov_loop fuel x n
  end.

Definition sovDuration (x : Z) : Z := sov_loop varint_turns x 0.

Definition sozDuration (x : Z) : Z :=
  sovDuration (uint64 (Z.lxor (uint64 (Z.shiftl x 1)) (uint64 (Z.shiftr (int64 x) 63)))).

(** [for v >= 1<<7 { data[offset] = uint8(v&0x7f | 0x80); v >>= 7; offset++ };
    data[offset] = uint8(v); return offset + 1] *)
Fixpoint encodeVarint_loop (fuel : nat) (data : list Z) (offset : Z) (v : Z)
  : option (list Z * Z) :=
  if 2 ^ 7 <=? v then
    match fuel with
    | O => None
    | S fuel =>
        data ← store_byte data offset (uint8 (Z.lor (Z.land v 0x7f) 0x80));
        encodeVarint_loop fuel data (offset + 1) (Z.shiftr v 7)
    end
  else
    data ← store_byte data offset (uint8 v);
    Some (data, offset + 1).

Definition encodeVarintDuration (data : list Z) (offset : Z) (v : Z) : option (list Z * Z) :=
  encodeVarint_loop varint_turns data offset v.

Definition encodeFixed64Duration (data : list Z) (offset : Z) (v : Z) : option (list Z * Z) :=
  data ← store_byte data offset (uint8 v);
  data ← store_byte data (offset + 1) (uint8 (Z.shiftr v 8));
  data ← store_byte data (offset + 2) (uint8 (Z.shiftr v 16));
  data ← store_byte data (offset + 3) (uint8 (Z.shiftr v 24));
  data ← store_byte data (offset + 4) (uint8 (Z.shiftr v 32));
  data ← store_byte data (offset + 5) (uint8 (Z.shiftr v 40));
  data ← store_byte data (offset + 6) (uint8 (Z.shiftr v 48));
  data ← store_byte data (offset + 7) (uint8 (Z.shiftr v 56));
  Some (data, offset + 8).

Definition encodeFixed32Duration (data : list Z) (offset : Z) (v : Z) : option (list Z * Z) :=
  data ← store_byte data offset (uint8 v);
  data ← store_byte data (offset + 1) (uint8 (Z.shiftr v 8));
  data ← store_byte data (offset + 2) (uint8 (Z.shiftr v 16));
  data ← store_byte data (offset + 3) (uint8 (Z.shiftr v 24));
  Some (data, offset + 4).

(** [for v >= 1<<7 { data = append(data, uint8(uint64(v)&0x7f|0x80)); v >>= 7 };
    data = append(data, uint8(v))] *)
Fixpoint encodeVarintPopulate_loop (fuel : nat) (data : list Z) (v : Z) : list Z :=
  if 2 ^ 7 <=? v then
    match fuel with
    | O => data
    | S fuel =>
        encodeVarintPopulate_loop fuel
          (data ++ [uint8 (Z.lor (Z.land (uint64 v) 0x7f) 0x80)]) (Z.shiftr v 7)
    end
  else data ++ [uint8 v].

Definition encodeVarintPopulateDuration (data : list Z) (v : Z) : list Z :=
  encodeVarintPopulate_loop varint_turns data v.

Definition Size (m : Duration) : Z :=
  let n := 0 in
  let n := if Seconds m =? 0 then n else n + (1 + sovDuration (uint64 (Seconds m))) in
  let n := if Nanos m =? 0 then n else n + (1 + sovDuration (uint64 (Nanos m))) in
  n.

Definition MarshalTo (m : Duration) (data : list Z) : option (list Z * Z) :=
  let i := 0 in
  '(data, i) ←
    (if Seconds m =? 0 then Some (data, i)
     else
       data ← store_byte data i 0x8;
       encodeVarintDuration data (i + 1) (uint64 (Seconds m)));
  '(data, i) ←
    (if Nanos m =? 0 then Some (data, i)
     else
       data ← store_byte data i 0x10;
       encodeVarintDuration data (i + 1) (uint64 (Nanos m)));
  Some (data, i).

Definition Marshal (m : Duration) : option (list Z) :=
  let size := Size m in
  let data := replicate (Z.to_nat size) 0 in
  '(data, n) ← MarshalTo m data;
  Some (take (Z.to_nat n) data).

(** *** Decoders *)

Inductive unmarshal_error : Type :=
  | ErrUnexpectedEOF
  | ErrIntOverflow
  | ErrInvalidLength
  | ErrWrongWireType (wireType : Z) (field : Z)
  | ErrIllegalWireType (wireType : Z)
  | ErrEndGroup
  | ErrIllegalTag (fieldNum : Z) (wire : Z).

Inductive panic : Type :=
  | IndexOutOfRange
  | Unreachable.

(** How a call ends: it returns a value, returns an error, panics, or is
    still running when the fuel of the embedding is used up. *)
Inductive outcome (A : Type) : Type :=
  | Ok (a : A)
  | Error (e : unmarshal_error)
  | Panic (p : panic)
  | OutOfFuel.
Arguments Ok {A} a.
Arguments Error {A} e.
Arguments Panic {A} p.
Arguments OutOfFuel {A}.

(** The varint loops of the decoders,
    [for shift := uint(0); ; shift += 7 {
       if shift >= 64 { return ErrIntOverflow }     // Timestamp only
       if iNdEx >= l { return io.ErrUnexpectedEOF }
       b := data[iNdEx]; iNdEx++
       x |= (T(b) & 0x7F) << shift
       if b < 0x80 { break } }],
    run over [rest = data[iNdEx:]].  [checked] tells whether the loop has the
    overflow test, [conv] is the conversion to the type [T] of [x].  The
    result carries the value of [x] also when the loop fails, since [x] may
    be a field of the message. *)
Inductive read_result : Type :=
  | ReadOk (x : Z) (iNdEx : Z)
  | ReadError (x : Z) (e : unmarshal_error)
  | ReadPanic.

Fixpoint read_varint_loop (checked : bool) (conv : Z → Z)
    (rest : list Z) (shift : Z) (x : Z) (iNdEx : Z) : read_result :=
  if checked && (64 <=? shift) then ReadError x ErrIntOverflow
  else
    match rest with
    | [] => ReadError x ErrUnexpectedEOF
    | b :: rest' =>
        let iNdEx := iNdEx + 1 in
        let x := Z.lor x (conv (Z.shiftl (Z.land b 0x7F) shift)) in
        if b <? 0x80 then ReadOk x iNdEx
        else read_varint_loop checked conv rest' (gouint (shift + 7)) x iNdEx
    end.

(** The loop entered at index [iNdEx] of [data] with [x = 0]; a negative
    index passes the test [iNdEx >= l] and panics at [data[iNdEx]]. *)
Definition read_varint (checked : bool) (conv : Z → Z) (data : list Z) (iNdEx : Z)
  : read_result :=
  if Z.of_nat (length data) <=? iNdEx then ReadError 0 ErrUnexpectedEOF
  else if iNdEx <? 0 then ReadPanic
  else read_varint_loop checked conv (drop (Z.to_nat iNdEx) data) 0 0 iNdEx.

(** The loops that step over a varint without decoding it,
    [for ... { if iNdEx >= l { return 0, io.ErrUnexpectedEOF }
               iNdEx++; if data[iNdEx-1] < 0x80 { break } }]. *)
Fixpoint pass_varint_loop (checked : bool) (rest : list Z) (shift : Z) (iNdEx : Z)
  : outcome Z :=
  if checked && (64 <=? shift) then Error ErrIntOverflow
  else
    match rest with
    | [] => Error ErrUnexpectedEOF
    | b :: rest' =>
        let iNdEx := iNdEx + 1 in
        if b <? 0x80 then Ok iNdEx
        else pass_varint_loop checked rest' (gouint (shift + 7)) iNdEx
    end.

Definition pass_varint (checked : bool) (data : list Z) (iNdEx : Z) : outcome Z :=
  if Z.of_nat (length data) <=? iNdEx then Error ErrUnexpectedEOF
  else if iNdEx <? 0 then Panic IndexOutOfRange
  else pass_varint_loop checked (drop (Z.to_nat iNdEx) data) 0 iNdEx.

(** [data[iNdEx:]] *)
Definition slice_from (data : list Z) (iNdEx : Z) : option (list Z) :=
  if bool_decide (0 ≤ iNdEx ≤ Z.of_nat (length data))
  then Some (drop (Z.to_nat iNdEx) data)
  else None.

Fixpoint skipDuration (fuel : nat) (data : list Z) : outcome Z :=
  match fuel with
  | O => OutOfFuel
  | S fuel =>
      let l := Z.of_nat (length data) in
      let iNdEx := 0 in
      if iNdEx <? l then
        match read_varint false uint64 data iNdEx with
        | ReadPanic => Panic IndexOutOfRange
        | ReadError _ e => Error e
        | ReadOk wire iNdEx =>
            let wireType := goint (Z.land wire 0x7) in
            if wireType =? 0 then pass_varint false data iNdEx
            else if wireType =? 1 then Ok (goint (iNdEx + 8))
            else if wireType =? 2 then
              match read_varint false goint data iNdEx with
              | ReadPanic => Panic IndexOutOfRange
              | ReadError _ e => Error e
              | ReadOk length iNdEx => Ok (goint (iNdEx + length))
              end
            else if wireType =? 3 then skipDuration_group fuel data iNdEx
            else if wireType =? 4 then Ok iNdEx
            else if wireType =? 5 then Ok (goint (iNdEx + 4))
            else Error (ErrIllegalWireType wireType)
        end
      else Panic Unreachable
  end
with skipDuration_group (fuel : nat) (data : list Z) (iNdEx : Z) : outcome Z :=
  match fuel with
  | O => OutOfFuel
  | S fuel =>
      let start := iNdEx in
      match read_varint false uint64 data iNdEx with
      | ReadPanic => Panic IndexOutOfRange
      | ReadError _ e => Error e
      | ReadOk innerWire iNdEx =>
          let innerWireType := goint (Z.land innerWire 0x7) in
          if innerWireType =? 4 then Ok iNdEx
          else
            match slice_from data start with
            | None => Panic IndexOutOfRange
            | Some rest =>
                match skipDuration fuel rest with
                | Ok next => skipDuration_group fuel data (goint (start + next))
                | other => other
                end
            end
      end
  end.

Fixpoint skipTimestamp (fuel : nat) (data : list Z) : outcome Z :=
  match fuel with
  | O => OutOfFuel
  | S fuel =>
      let l := Z.of_nat (length data) in
      let iNdEx := 0 in
      if iNdEx <? l then
        match read_varint true uint64 data iNdEx with
        | ReadPanic => Panic IndexOutOfRange
        | ReadError _ e => Error e
        | ReadOk wire iNdEx =>
            let wireType := goint (Z.land wire 0x7) in
            if wireType =? 0 then pass_varint true data iNdEx
            else if wireType =? 1 then Ok (goint (iNdEx + 8))
            else if wireType =? 2 then
              match read_varint true goint data iNdEx with
              | ReadPanic => Panic IndexOutOfRange
              | ReadError _ e => Error e
              | ReadOk length iNdEx =>
                  let iNdEx := goint (iNdEx + length) in
                  if length <? 0 then Error ErrInvalidLength else Ok iNdEx
              end
            else if wireType =? 3 then skipTimestamp_group fuel data iNdEx
            else if wireType =? 4 then Ok iNdEx
            else if wireType =? 5 then Ok (goint (iNdEx + 4))
            else Error (ErrIllegalWireType wireType)
        end
      else Panic Unreachable
  end
with skipTimestamp_group (fuel : nat) (data : list Z) (iNdEx : Z) : outcome Z :=
  match fuel with
  | O => OutOfFuel
  | S fuel =>
      let start := iNdEx in
      match read_varint true uint64 data iNdEx with
      | ReadPanic => Panic IndexOutOfRange
      | ReadError _ e => Error e
      | ReadOk innerWire iNdEx =>
          let innerWireType := goint (Z.land innerWire 0x7) in
          if innerWireType =? 4 then Ok iNdEx
          else
            match slice_from data start with
            | None => Panic IndexOutOfRange
            | Some rest =>
                match skipTimestamp fuel rest with
                | Ok next => skipTimestamp_group fuel data (goint (start + next))
                | other => other
                end
            end
      end
  end.

(** One turn of the loop [for iNdEx < l] of [Unmarshal]: either the loop goes
    on at a new index, or [Unmarshal] returns an error or panics.  In every
    case the message holds what was assigned to it so far. *)
Inductive turn : Type :=
  | Next (m : Duration) (iNdEx : Z)
  | Stop (m : Duration) (st : outcome ()).

Definition stop_read (m : Duration) (e : unmarshal_error) : turn := Stop m (Error e).

Definition DurationUnmarshal_turn (fuel : nat) (data : list Z) (iNdEx : Z) (m : Duration)
  : turn :=
  let l := Z.of_nat (length data) in
  match read_varint false uint64 data iNdEx with
  | ReadPanic => Stop m (Panic IndexOutOfRange)
  | ReadError _ e => Stop m (Error e)
  | ReadOk wire iNdEx =>
      let fieldNum := int32 (Z.shiftr wire 3) in
      let wireType := goint (Z.land wire 0x7) in
      if fieldNum =? 1 then
        if negb (wireType =? 0) then Stop m (Error (ErrWrongWireType wireType 1))
        else
          match read_varint false int64 data iNdEx with
          | ReadPanic => Stop (mkDuration 0 (Nanos m)) (Panic IndexOutOfRange)
          | ReadError x e => Stop (mkDuration x (Nanos m)) (Error e)
          | ReadOk x iNdEx => Next (mkDuration x (Nanos m)) iNdEx
          end
      else if fieldNum =? 2 then
        if negb (wireType =? 0) then Stop m (Error (ErrWrongWireType wireType 2))
        else
          match read_varint false int32 data iNdEx with
          | ReadPanic => Stop (mkDuration (Seconds m) 0) (Panic IndexOutOfRange)
          | ReadError x e => Stop (mkDuration (Seconds m) x) (Error e)
          | ReadOk x iNdEx => Next (mkDuration (Seconds m) x) iNdEx
          end
      else
        let sizeOfWire := sov_loop varint_turns wire 0 in
        let iNdEx := goint (iNdEx - sizeOfWire) in
        match slice_from data iNdEx with
        | None => Stop m (Panic IndexOutOfRange)
        | Some rest =>
            match skipDuration fuel rest with
            | Ok skippy =>
                if goint (iNdEx + skippy) >? l then Stop m (Error ErrUnexpectedEOF)
                else Next m (goint (iNdEx + skippy))
            | Error e => Stop m (Error e)
            | Panic p => Stop m (Panic p)
            | OutOfFuel => Stop m OutOfFuel
            end
        end
  end.

Fixpoint DurationUnmarshal_loop (fuel : nat) (data : list Z) (iNdEx : Z) (m : Duration)
  : Duration * outcome () :=
  if iNdEx <? Z.of_nat (length data) then
    match fuel with
    | O => (m, OutOfFuel)
    | S fuel =>
        match DurationUnmarshal_turn fuel data iNdEx m with
        | Next m iNdEx => DurationUnmarshal_loop fuel data iNdEx m
        | Stop m st => (m, st)
        end
    end
  else (m, Ok ()).

Definition DurationUnmarshal (fuel : nat) (m : Duration) (data : list Z)
  : Duration * outcome () :=
  DurationUnmarshal_loop fuel data 0 m.

Definition TimestampUnmarshal_turn (fuel : nat) (data : list Z) (iNdEx : Z) (m : Timestamp)
  : turn :=
  let l := Z.of_nat (length data) in
  let preIndex := iNdEx in
  match read_varint true uint64 data iNdEx with
  | ReadPanic => Stop m (Panic IndexOutOfRange)
  | ReadError _ e => Stop m (Error e)
  | ReadOk wire iNdEx =>
      let fieldNum := int32 (Z.shiftr wire 3) in
      let wireType := goint (Z.land wire 0x7) in
      if wireType =? 4 then Stop m (Error ErrEndGroup)
      else if fieldNum <=? 0 then Stop m (Error (ErrIllegalTag fieldNum wire))
      else if fieldNum =? 1 then
        if negb (wireType =? 0) then Stop m (Error (ErrWrongWireType wireType 1))
        else
          match read_varint true int64 data iNdEx with
          | ReadPanic => Stop (mkDuration 0 (Nanos m)) (Panic IndexOutOfRange)
          | ReadError x e => Stop (mkDuration x (Nanos m)) (Error e)
          | ReadOk x iNdEx => Next (mkDuration x (Nanos m)) iNdEx
          end
      else if fieldNum =? 2 then
        if negb (wireType =? 0) then Stop m (Error (ErrWrongWireType wireType 2))
        else
          match read_varint true int32 data iNdEx with
          | ReadPanic => Stop (mkDuration (Seconds m) 0) (Panic IndexOutOfRange)
          | ReadError x e => Stop (mkDuration (Seconds m) x) (Error e)
          | ReadOk x iNdEx => Next (mkDuration (Seconds m) x) iNdEx
          end
      else
        let iNdEx := preIndex in
        match slice_from data iNdEx with
        | None => Stop m (Panic IndexOutOfRange)
        | Some rest =>
            match skipTimestamp fuel rest with
            | Ok skippy =>
                if skippy <? 0 then Stop m (Error ErrInvalidLength)
                else if goint (iNdEx + skippy) >? l then Stop m (Error ErrUnexpectedEOF)
                else Next m (goint (iNdEx + skippy))
            | Error e => Stop m (Error e)
            | Panic p => Stop m (Panic p)
            | OutOfFuel => Stop m OutOfFuel
            end
        end
  end.

Fixpoint TimestampUnmarshal_loop (fuel : nat) (data : list Z) (iNdEx : Z) (m : Timestamp)
  : Timestamp * outcome () :=
  if iNdEx <? Z.of_nat (length data) then
    match fuel with
    | O => (m, OutOfFuel)
    | S fuel =>
        match TimestampUnmarshal_turn fuel data iNdEx m with
        | Next m iNdEx => TimestampUnmarshal_loop fuel data iNdEx m
        | Stop m st => (m, st)
        end
    end
  else if iNdEx >? Z.of_nat (length data) then (m, Error ErrUnexpectedEOF)
  else (m, Ok ()).

Definition TimestampUnmarshal (fuel : nat) (m : Timestamp) (data : list Z)
  : Timestamp * outcome () :=
  TimestampUnmarshal_loop fuel data 0 m.

(** *** Equal and VerboseEqual *)

(** The argument [that interface{}] as the methods tell it apart: the nil
    interface, a pointer to a message of the receiver's type (maybe a nil
    pointer), a message of that type held by value, or anything else. *)
Inductive interface_value : Type :=
  | NilInterface
  | PointerTo (that1 : option Duration)
  | ValueOf (that2 : Duration)
  | OtherType.

(** The errors of [VerboseEqual], one for each [fmt.Errorf]. *)
Inductive equal_error : Type :=
  | ThatNilThisNot
  | ThatNotOfType
  | ThatNilPointerThisNot
  | ThatNotNilThisNil
  | SecondsNotEqual (this that : Z)
  | NanosNotEqual (this that : Z).

(** The part the four methods share, from [if that1 == nil] on. *)
Definition verbose_equal_pointers (this that1 : option Duration) : option equal_error :=
  match that1 with
  | None =>
      match this with
      | None => None
      | Some _ => Some ThatNilPointerThisNot
      end
  | Some that1 =>
      match this with
      | None => Some ThatNotNilThisNil
      | Some this =>
          if negb (Seconds this =? Seconds that1)
          then Some (SecondsNotEqual (Seconds this) (Seconds that1))
          else if negb (Nanos this =? Nanos that1)
          then Some (NanosNotEqual (Nanos this) (Nanos that1))
          else None
      end
  end.

Definition equal_pointers (this that1 : option Duration) : bool :=
  match that1 with
  | None =>
      match this with
      | None => true
      | Some _ => false
      end
  | Some that1 =>
      match this with
      | None => false
      | Some this =>
          if negb (Seconds this =? Seconds that1) then false
          else if negb (Nanos this =? Nanos that1) then false
          else true
      end
  end.

Definition DurationVerboseEqual (this : option Duration) (that : interface_value)
  : option equal_error :=
  match that with
  | NilInterface =>
      match this with
      | None => None
      | Some _ => Some ThatNilThisNot
      end
  | PointerTo that1 => verbose_equal_pointers this that1
  | ValueOf _ | OtherType => Some ThatNotOfType
  end.

Definition DurationEqual (this : option Duration) (that : interface_value) : bool :=
  match that with
  | NilInterface =>
      match this with
      | None => true
      | Some _ => false
      end
  | PointerTo that1 => equal_pointers this that1
  | ValueOf _ | OtherType => false
  end.

Definition TimestampVerboseEqual (this : option Timestamp) (that : interface_value)
  : option equal_error :=
  match that with
  | NilInterface =>
      match this with
      | None => None
      | Some _ => Some ThatNilThisNot
      end
  | PointerTo that1 => verbose_equal_pointers this that1
  | ValueOf that2 => verbose_equal_pointers this (Some that2)
  | OtherType => Some ThatNotOfType
  end.

Definition TimestampEqual (this : option Timestamp) (that : interface_value) : bool :=
  match that with
  | NilInterface =>
      match this with
      | None => true
      | Some _ => false
      end
  | PointerTo that1 => equal_pointers this that1
  | ValueOf that2 => equal_pointers this (Some that2)
  | OtherType => false
  end.

(** *** Definitions used to state the properties of the wire format *)

(** A signed conversion keeps the low bits and repeats the sign bit. *)
Definition signed (w : Z) (z : Z) : Z := (z + 2 ^ (w - 1)) mod 2 ^ w - 2 ^ (w - 1).

(** A conversion to a fixed-width type distributes over [|]. *)
Definition keeps_lor (conv : Z → Z) : Prop :=
  ∀ a b, conv (Z.lor a b) = Z.lor (conv a) (conv b).

(** The bytes of the varint of a [uint64]. *)
Definition varint_bytes (v : Z) : list Z := encodeVarintPopulateDuration [] v.

(** The encoding of one field, and of a message. *)
Definition field_bytes (tag : Z) (value : Z) : list Z :=
  if value =? 0 then [] else tag :: varint_bytes (uint64 value).

Definition wire_bytes (m : Duration) : list Z :=
  field_bytes 0x8 (Seconds m) ++ field_bytes 0x10 (Nanos m).

(** The message after the fields of [m] have been read into [m0]: a field
    that is zero in [m] is not on the wire, and keeps its value. *)
Definition merge_fields (m m0 : Duration) : Duration :=
  mkDuration (if Seconds m =? 0 then Seconds m0 else Seconds m)
             (if Nanos m =? 0 then Nanos m0 else Nanos m).

(** Turns of the loop of [Unmarshal] one field takes: none when it is zero,
    since it is not written then. *)
Definition turns_of (value : Z) : nat := if value =? 0 then 0%nat else 1%nat.

(** The value of a little-endian byte string. *)
Definition little_endian (bytes : list Z) : Z := foldr (λ b acc, b + 256 * acc) 0 bytes.

(** [data[offset] = b0; data[offset+1] = b1; ...] *)
Fixpoint store_bytes (bytes : list Z) (data : list Z) (offset : Z) : option (list Z) :=
  match bytes with
  | [] => Some data
  | b :: bytes' => data ← store_byte data offset b; store_bytes bytes' data (offset + 1)
  end.

Definition fixed64_bytes (v : Z) : list Z :=
  [uint8 v; uint8 (Z.shiftr v 8); uint8 (Z.shiftr v 16); uint8 (Z.shiftr v 24);
   uint8 (Z.shiftr v 32); uint8 (Z.shiftr v 40); uint8 (Z.shiftr v 48); uint8 (Z.shiftr v 56)].

Definition fixed32_bytes (v : Z) : list Z :=
  [uint8 v; uint8 (Z.shiftr v 8); uint8 (Z.shiftr v 16); uint8 (Z.shiftr v 24)].

(** The encodings of a field value that the decoders step over: a varint
    (wire type 0), eight bytes (1), a length followed by that many bytes (2),
    four bytes (5). *)
Inductive field_payload : Z → list Z → Prop :=
  | payload_varint v :
      0 ≤ v < 2 ^ 64 → field_payload 0 (varint_bytes v)
  | payload_fixed64 bytes :
      length bytes = 8%nat → field_payload 1 bytes
  | payload_bytes bytes :
      field_payload 2 (varint_bytes (Z.of_nat (length bytes)) ++ bytes)
  | payload_fixed32 bytes :
      length bytes = 4%nat → field_payload 5 bytes.

Local Close Scope Z_scope.

(** * Properties *)

(** ** Structural induction on expression trees *)

Lemma QuorumExpr_tree_ind (P : QuorumExpr → Prop) :
  (∀ t vs es, Forall P es → P (mkQuorumExpr t vs es)) → ∀ e, P e.
Proof.
  intros step. fix rec 1. intros [t vs es]. apply step.
  induction es as [|e' es' IH]; constructor.
  - apply rec.
  - exact IH.
Qed.

Lemma wf_expr_unfold e :
  wf_expr e ↔ in_uint64 (Threshold e) ∧ Forall wf_expr (Subexpressions e).
Proof.
  destruct e as [t vs es]; simpl.
  apply and_iff_compat_l.
  induction es as [|e' es' IH]; simpl.
  - split; auto.
  - rewrite Forall_cons, IH. reflexivity.
Qed.


(** ** The counter never wraps *)

Lemma uint64_dec_pred n : 0 < n → in_uint64 n → uint64_dec n = n - 1.
Proof.
  unfold in_uint64, uint64_dec. intros Hpos Hlt.
  replace (n + (uint64_modulus - 1)) with ((n - 1) + 1 * uint64_modulus) by lia.
  rewrite N.Div0.mod_add. apply N.mod_small. lia.
Qed.

Lemma count_present_cons have v vs :
  count_present have (v :: vs) =
  (if bool_decide (v ∈ have) then S (count_present have vs) else count_present have vs).
Proof.
  unfold count_present. rewrite filter_cons.
  case_bool_decide; destruct (decide (v ∈ have)); simpl; congruence.
Qed.

Lemma count_true_cons b bs :
  count_true (b :: bs) = (if b then S (count_true bs) else count_true bs).
Proof.
  unfold count_true. rewrite filter_cons.
  destruct b; destruct (decide _); simpl; congruence.
Qed.

Lemma count_present_le have vs : (count_present have vs ≤ length vs)%nat.
Proof. apply length_filter. Qed.

Lemma count_true_le bs : (count_true bs ≤ length bs)%nat.
Proof. apply length_filter. Qed.

(** The first loop returns as soon as [remaining] present verifiers have been
    seen, and otherwise leaves the counter lowered by their number. *)
Lemma verifiers_loop_count have vs remaining :
  0 < remaining → in_uint64 remaining →
  verifiers_loop have vs remaining =
  if decide (remaining ≤ N.of_nat (count_present have vs)) then Returned
  else Remaining (remaining - N.of_nat (count_present have vs)).
Proof.
  revert remaining. induction vs as [|v vs IH]; intros r Hpos Hr.
  - simpl. destruct (decide _) as [Hle|_]; [unfold count_present in Hle; simpl in Hle; lia|].
    f_equal. unfold count_present; simpl. lia.
  - simpl. rewrite count_present_cons. case_bool_decide.
    + rewrite (uint64_dec_pred r) by done.
      destruct (N.eqb_spec (r - 1) 0) as [Hz|Hnz].
      * rewrite decide_True by lia. done.
      * rewrite IH by (unfold in_uint64 in *; lia).
        repeat destruct (decide _); try lia; try done. f_equal; lia.
    + apply IH; done.
Qed.

Lemma results_loop_count results remaining :
  0 < remaining → in_uint64 remaining →
  results_loop results remaining = bool_decide (remaining ≤ N.of_nat (count_true results)).
Proof.
  revert remaining. induction results as [|b bs IH]; intros r Hpos Hr.
  - simpl. rewrite bool_decide_eq_false_2; [done|]. unfold count_true; simpl. lia.
  - simpl. rewrite count_true_cons. destruct b.
    + rewrite (uint64_dec_pred r) by done.
      destruct (N.eqb_spec (r - 1) 0) as [Hz|Hnz].
      * rewrite bool_decide_eq_true_2 by lia. done.
      * rewrite IH by (unfold in_uint64 in *; lia).
        apply bool_decide_ext. lia.
    + apply IH; done.
Qed.

Lemma CheckQuorum_unfold want have :
  CheckQuorum want have =
  if Threshold want =? 0 then true
  else match verifiers_loop have (Verifiers want) (Threshold want) with
       | Returned => true
       | Remaining remaining =>
           results_loop (map (λ e, CheckQuorum e have) (Subexpressions want)) remaining
       end.
Proof.
  destruct want as [t vs es]; simpl.
  destruct (t =? 0); [done|].
  destruct (verifiers_loop have vs t) as [|r]; [done|].
  revert r. induction es as [|e es IH]; intros r; simpl; [done|].
  destruct (CheckQuorum e have); [|apply IH].
  destruct (uint64_dec r =? 0); [done|apply IH].
Qed.

(** The early exits only save work: the result is the comparison of the
    threshold with the number of satisfied children. *)
Lemma CheckQuorum_count want have :
  in_uint64 (Threshold want) →
  CheckQuorum want have =
  (Threshold want <=?
     N.of_nat (count_present have (Verifiers want)) +
     N.of_nat (count_true (map (λ e, CheckQuorum e have) (Subexpressions want)))).
Proof.
  intros Ht. rewrite CheckQuorum_unfold.
  destruct (N.eqb_spec (Threshold want) 0) as [Hz|Hnz].
  - rewrite Hz. symmetry. apply N.leb_le. lia.
  - rewrite verifiers_loop_count by (done || lia).
    destruct (decide _) as [Hle|Hgt].
    + symmetry. apply N.leb_le. lia.
    + rewrite results_loop_count by (unfold in_uint64 in *; lia).
      destruct (N.leb_spec (Threshold want)
                  (N.of_nat (count_present have (Verifiers want)) +
                   N.of_nat (count_true (map (λ e, CheckQuorum e have) (Subexpressions want))))).
      * apply bool_decide_eq_true_2. lia.
      * apply bool_decide_eq_false_2. lia.
Qed.

(** ** The instrumented evaluator computes the same result *)

Lemma verifiers_loop_trace_result have vs remaining :
  (verifiers_loop_trace have vs remaining).1 = verifiers_loop have vs remaining.
Proof.
  revert remaining. induction vs as [|v vs IH]; intros r; simpl; [done|].
  case_bool_decide.
  - destruct (uint64_dec r =? 0); [done|].
    specialize (IH (uint64_dec r)).
    destruct (verifiers_loop_trace have vs (uint64_dec r)); done.
  - specialize (IH r). destruct (verifiers_loop_trace have vs r); done.
Qed.

Lemma CheckQuorum_trace_result want have :
  (CheckQuorum_trace want have).1 = CheckQuorum want have.
Proof.
  induction want as [t vs es IH] using QuorumExpr_tree_ind; simpl.
  destruct (t =? 0); [done|].
  pose proof (verifiers_loop_trace_result have vs t) as Hv.
  destruct (verifiers_loop_trace have vs t) as [[|r] tr]; simpl in Hv; rewrite <- Hv; [done|].
  clear Hv.
  match goal with
  | |- (let '(b, tr') := ?loop es r in _).1 = _ =>
      enough (H : ∀ r, (loop es r).1 =
                (fix subexpressions_loop (es : list QuorumExpr) (remaining : N) : bool :=
                   match es with
                   | [] => false
                   | e :: es' =>
                       if CheckQuorum e have then
                         let remaining := uint64_dec remaining in
                         if remaining =? 0 then true else subexpressions_loop es' remaining
                       else subexpressions_loop es' remaining
                   end) es r)
        by (rewrite <- H; destruct (loop es r); done)
  end.
  clear r tr. induction IH as [|e es He _ IHes]; intros r; [done|].
  cbn [fst]. rewrite <- He.
  destruct (CheckQuorum_trace e have) as [[|] tre]; cbn [fst].
  - destruct (uint64_dec r =? 0); [done|].
    rewrite <- IHes. match goal with |- (let '(_, _) := ?x in _).1 = _ => destruct x end; done.
  - rewrite <- IHes. match goal with |- (let '(_, _) := ?x in _).1 = _ => destruct x end; done.
Qed.

(** ** Claims about CheckQuorum *)

(** C1: an expression whose threshold is 0 is satisfied by every presence
    set, the empty one included, and the evaluation makes no lookup in the
    presence set and no recursive call, whatever the verifiers and
    sub-expressions of the expression are. *)
Theorem CheckQuorum_threshold_zero (want : QuorumExpr) (have : presence) :
  Threshold want = 0 →
  CheckQuorum want have = true ∧ CheckQuorum_trace want have = (true, []).
Proof.
  intros Hz. destruct want as [t vs es]; simpl in *. subst t. done.
Qed.

Lemma CheckQuorum_threshold_zero_witness :
  CheckQuorum (mkQuorumExpr 0 [7; 8] [mkQuorumExpr 3 [9] []]) ∅ = true ∧
  CheckQuorum_trace (mkQuorumExpr 0 [7; 8] [mkQuorumExpr 3 [9] []]) ∅ = (true, []).
Proof.
  apply (CheckQuorum_threshold_zero (mkQuorumExpr 0 [7; 8] [mkQuorumExpr 3 [9] []]) ∅).
  reflexivity.
Defined.

Lemma CheckQuorum_Satisfies_ref want have :
  wf_expr want → CheckQuorum want have = Satisfies_ref want have.
Proof.
  induction want as [t vs es IH] using QuorumExpr_tree_ind.
  rewrite wf_expr_unfold. intros [Ht Hes]. rewrite CheckQuorum_count by done.
  simpl in *. do 4 f_equal.
  apply map_ext_Forall.
  rewrite Forall_forall in *. auto.
Qed.

Lemma count_present_Permutation have vs vs' :
  vs ≡ₚ vs' → count_present have vs = count_present have vs'.
Proof. unfold count_present. intros ->. done. Qed.

Lemma count_true_Permutation bs bs' :
  bs ≡ₚ bs' → count_true bs = count_true bs'.
Proof. unfold count_true. intros ->. done. Qed.

(** C2: the short-circuiting evaluator agrees with the reference definition
    (present verifiers plus satisfied sub-expressions reach the threshold),
    and therefore its result does not depend on the order of the verifiers
    list or of the sub-expressions list. *)
Theorem CheckQuorum_refines_reference (want : QuorumExpr) (have : presence) :
  wf_expr want →
  CheckQuorum want have = Satisfies_ref want have ∧
  ∀ vs' es',
    Verifiers want ≡ₚ vs' → Subexpressions want ≡ₚ es' →
    CheckQuorum (mkQuorumExpr (Threshold want) vs' es') have = CheckQuorum want have.
Proof.
  intros Hwf. split; [by apply CheckQuorum_Satisfies_ref|].
  intros vs' es' Hvs Hes.
  apply wf_expr_unfold in Hwf as [Ht _].
  rewrite !CheckQuorum_count by done. simpl.
  rewrite (count_present_Permutation have _ _ Hvs).
  rewrite (count_true_Permutation
             (map (λ e, CheckQuorum e have) (Subexpressions want))
             (map (λ e, CheckQuorum e have) es')); [done|].
  by apply Permutation_map.
Qed.

Lemma CheckQuorum_refines_reference_witness :
  CheckQuorum (mkQuorumExpr 2 [1; 2] [mkQuorumExpr 1 [3] []]) {[2; 3]} =
    Satisfies_ref (mkQuorumExpr 2 [1; 2] [mkQuorumExpr 1 [3] []]) {[2; 3]} ∧
  ∀ vs' es',
    [1; 2] ≡ₚ vs' → [mkQuorumExpr 1 [3] []] ≡ₚ es' →
    CheckQuorum (mkQuorumExpr 2 vs' es') {[2; 3]} =
    CheckQuorum (mkQuorumExpr 2 [1; 2] [mkQuorumExpr 1 [3] []]) {[2; 3]}.
Proof.
  apply (CheckQuorum_refines_reference
           (mkQuorumExpr 2 [1; 2] [mkQuorumExpr 1 [3] []]) {[2; 3]}).
  vm_compute. repeat split.
Defined.

Lemma count_present_size have vs :
  NoDup vs → count_present have vs = size (list_to_set vs ∩ have : gset N).
Proof.
  intros Hnd. unfold count_present.
  rewrite <- (size_list_to_set (C:=gset N)) by (by apply NoDup_filter).
  f_equal. apply set_eq. intros v.
  rewrite elem_of_list_to_set, list_elem_of_filter, elem_of_intersection,
    elem_of_list_to_set. tauto.
Qed.

(** C3: for a leaf expression whose verifiers are pairwise distinct and form
    the set V, with threshold T ≤ |V|, the evaluator answers true exactly when
    at least T elements of V are present. *)
Theorem CheckQuorum_leaf (t : N) (vs : list N) (have : presence) :
  in_uint64 t → NoDup vs → t ≤ N.of_nat (length vs) →
  CheckQuorum (mkQuorumExpr t vs []) have = true ↔
  t ≤ N.of_nat (size (list_to_set vs ∩ have : gset N)).
Proof.
  intros Ht Hnd _.
  rewrite CheckQuorum_count by done. simpl.
  rewrite count_present_size by done.
  rewrite N.leb_le. unfold count_true; simpl. lia.
Qed.

Lemma CheckQuorum_leaf_witness :
  CheckQuorum (mkQuorumExpr 2 [1; 2; 3] []) {[1; 3]} = true ↔
  2 ≤ N.of_nat (size (list_to_set [1; 2; 3] ∩ {[1; 3]} : gset N)).
Proof.
  apply (CheckQuorum_leaf 2 [1; 2; 3] {[1; 3]}).
  - reflexivity.
  - apply (bool_decide_unpack _). vm_compute. exact I.
  - vm_compute. discriminate.
Defined.


(** C6: a threshold larger than the number of verifiers plus the number of
    sub-expressions can never be met; in particular a positive threshold over
    no verifiers and no sub-expressions is never satisfied. *)
Theorem CheckQuorum_threshold_too_large (want : QuorumExpr) (have : presence) :
  in_uint64 (Threshold want) →
  N.of_nat (length (Verifiers want)) + N.of_nat (length (Subexpressions want))
    < Threshold want →
  CheckQuorum want have = false ∧
  (∀ t, in_uint64 t → 0 < t → CheckQuorum (mkQuorumExpr t [] []) have = false).
Proof.
  intros Ht Hlt. split.
  - rewrite CheckQuorum_count by done. apply N.leb_gt.
    pose proof (count_present_le have (Verifiers want)).
    pose proof (count_true_le (map (λ e, CheckQuorum e have) (Subexpressions want))) as Hc.
    rewrite length_map in Hc. lia.
  - intros t Hr Hpos. rewrite CheckQuorum_count by done. simpl.
    apply N.leb_gt. unfold count_present, count_true; simpl. lia.
Qed.

Lemma CheckQuorum_threshold_too_large_witness :
  CheckQuorum (mkQuorumExpr 4 [5; 6] [mkQuorumExpr 0 [] []]) {[5; 6]} = false ∧
  (∀ t, in_uint64 t → 0 < t → CheckQuorum (mkQuorumExpr t [] []) {[5; 6]} = false).
Proof.
  apply (CheckQuorum_threshold_too_large
           (mkQuorumExpr 4 [5; 6] [mkQuorumExpr 0 [] []]) {[5; 6]}).
  - reflexivity.
  - reflexivity.
Defined.

Lemma count_present_mono (have have' : presence) vs :
  have ⊆ have' → (count_present have vs ≤ count_present have' vs)%nat.
Proof.
  intros Hsub. induction vs as [|v vs IH]; [done|].
  rewrite !count_present_cons.
  case_bool_decide as Hin.
  - rewrite bool_decide_eq_true_2 by set_solver. lia.
  - case_bool_decide; lia.
Qed.

Lemma count_true_map_mono {A} (f g : A → bool) (l : list A) :
  Forall (λ x, f x = true → g x = true) l →
  (count_true (map f l) ≤ count_true (map g l))%nat.
Proof.
  induction 1 as [|x l Hx _ IH]; simpl; [done|].
  rewrite !count_true_cons.
  destruct (f x).
  - rewrite Hx by done. lia.
  - destruct (g x); lia.
Qed.

(** C8: the evaluator is monotone in the presence set: ratifications added
    to a satisfying presence set leave the expression satisfied. *)
Theorem CheckQuorum_monotone (want : QuorumExpr) (have have' : presence) :
  wf_expr want → have ⊆ have' →
  CheckQuorum want have = true → CheckQuorum want have' = true.
Proof.
  intros Hwf Hsub. revert Hwf.
  induction want as [t vs es IH] using QuorumExpr_tree_ind.
  rewrite wf_expr_unfold. intros [Ht Hes].
  rewrite !CheckQuorum_count by done. simpl in *.
  rewrite !N.leb_le. intros Hle.
  pose proof (count_present_mono have have' vs Hsub).
  assert (count_true (map (λ e, CheckQuorum e have) es)
          ≤ count_true (map (λ e, CheckQuorum e have') es))%nat.
  { apply count_true_map_mono. rewrite Forall_forall in *. auto. }
  lia.
Qed.

Lemma CheckQuorum_monotone_witness :
  CheckQuorum (mkQuorumExpr 2 [1; 2] [mkQuorumExpr 1 [3] []]) {[1; 3; 4]} = true.
Proof.
  apply (CheckQuorum_monotone
           (mkQuorumExpr 2 [1; 2] [mkQuorumExpr 1 [3] []]) {[1; 3]} {[1; 3; 4]}).
  - vm_compute. repeat split.
  - apply (bool_decide_unpack _). vm_compute. exact I.
  - vm_compute. reflexivity.
Defined.

Lemma count_true_zero_thresholds have es :
  (length (filter (λ e, Threshold e = 0%N) es)
   ≤ count_true (map (λ e, CheckQuorum e have) es))%nat.
Proof.
  induction es as [|e es IH]; simpl; [done|].
  rewrite filter_cons, count_true_cons.
  destruct (decide (Threshold e = 0)) as [Hz|Hnz].
  - rewrite CheckQuorum_unfold, Hz. simpl. lia.
  - destruct (CheckQuorum e have); lia.
Qed.

(** C9: sub-expressions of threshold 0 count as satisfied without any
    ratification: an expression with positive threshold T that has at least T
    sub-expressions of threshold 0 is satisfied by every presence set, the
    empty one included. *)
Theorem CheckQuorum_zero_subexpressions (want : QuorumExpr) (have : presence) :
  in_uint64 (Threshold want) → 0 < Threshold want →
  Threshold want ≤ N.of_nat (length (filter (λ e, Threshold e = 0) (Subexpressions want))) →
  CheckQuorum want have = true ∧ CheckQuorum want ∅ = true.
Proof.
  intros Ht _ Hle.
  split; rewrite CheckQuorum_count by done; apply N.leb_le.
  - pose proof (count_true_zero_thresholds have (Subexpressions want)). lia.
  - pose proof (count_true_zero_thresholds ∅ (Subexpressions want)). lia.
Qed.

Lemma CheckQuorum_zero_subexpressions_witness :
  CheckQuorum (mkQuorumExpr 2 [4] [mkQuorumExpr 0 [1] []; mkQuorumExpr 5 [] []; mkQuorumExpr 0 [] []])
    {[9]} = true ∧
  CheckQuorum (mkQuorumExpr 2 [4] [mkQuorumExpr 0 [1] []; mkQuorumExpr 5 [] []; mkQuorumExpr 0 [] []])
    ∅ = true.
Proof.
  apply (CheckQuorum_zero_subexpressions
           (mkQuorumExpr 2 [4] [mkQuorumExpr 0 [1] []; mkQuorumExpr 5 [] []; mkQuorumExpr 0 [] []])
           {[9]}).
  - reflexivity.
  - reflexivity.
  - vm_compute. discriminate.
Defined.

(** ** Claims about ListQuorum *)

Lemma listed_mentions e v : v ∈ listed e ↔ mentions e v.
Proof.
  split.
  - revert v. induction e as [t vs es IH] using QuorumExpr_tree_ind.
    intros v. simpl. rewrite elem_of_union, elem_of_list_to_set, elem_of_union_list.
    intros [Hv|(X & HX & Hv)].
    + by apply mentions_here.
    + apply list_elem_of_In, in_map_iff in HX as (e' & <- & He').
      apply list_elem_of_In in He'.
      apply (mentions_below _ e'); [done|].
      rewrite Forall_forall in IH. by apply IH.
  - induction 1 as [e v Hv|e e' v He' _ IH].
    + destruct e as [t vs es]; simpl in *. set_solver.
    + destruct e as [t vs es]; simpl in *.
      apply elem_of_union_r, elem_of_union_list.
      exists (listed e'). split; [|done].
      apply list_elem_of_In, in_map, list_elem_of_In. done.
Qed.

Lemma map_set_insert out v (h : store) keys :
  h !! out = Some keys → map_set out v h = <[out := {[v]} ∪ keys]> h.
Proof.
  intros Hl. unfold map_set. apply map_eq. intros l.
  destruct (decide (out = l)) as [<-|Hne].
  - rewrite lookup_alter_eq, lookup_insert_eq, Hl. done.
  - rewrite lookup_alter_ne, lookup_insert_ne by done. done.
Qed.

Lemma verifiers_loop_store out vs (h : store) keys :
  h !! out = Some keys →
  foldl (λ h verifier, map_set out verifier h) h vs = <[out := keys ∪ list_to_set vs]> h.
Proof.
  revert h keys. induction vs as [|v vs IH]; intros h keys Hl; simpl.
  - rewrite union_empty_r_L. symmetry. by apply insert_id.
  - rewrite (map_set_insert _ _ _ keys) by done.
    rewrite (IH _ ({[v]} ∪ keys)) by apply lookup_insert_eq.
    rewrite insert_insert_eq. f_equal.
    apply set_eq; intros x; simpl; rewrite ?elem_of_union; tauto.
Qed.

Lemma ListQuorum_unfold e out (h : store) :
  ListQuorum e out h =
  let '(out, h) := match out with None => make_map h | Some l => (l, h) end in
  (out,
   foldl (λ h e', (ListQuorum e' (Some out) h).2)
     (foldl (λ h verifier, map_set out verifier h) h (Verifiers e))
     (Subexpressions e)).
Proof.
  destruct e as [t vs es]; simpl.
  destruct (match out with None => make_map h | Some l => (l, h) end) as [l h0].
  f_equal. generalize (foldl (λ h verifier, map_set l verifier h) h0 vs).
  induction es as [|e es IH]; intros h1; simpl; [done|]. apply IH.
Qed.

(** A call on an allocated accumulator returns its address and adds to it,
    in place, exactly the verifiers the expression lists. *)
Lemma ListQuorum_store e out (h : store) keys :
  h !! out = Some keys →
  ListQuorum e (Some out) h = (out, <[out := keys ∪ listed e]> h).
Proof.
  revert h keys. induction e as [t vs es IH] using QuorumExpr_tree_ind.
  intros h keys Hl. rewrite ListQuorum_unfold. cbn [Verifiers Subexpressions].
  f_equal. rewrite (verifiers_loop_store _ _ _ keys) by done.
  simpl listed.
  assert (Hgen : ∀ (h' : store) keys',
    h' !! out = Some keys' →
    foldl (λ h e', (ListQuorum e' (Some out) h).2) h' es
    = <[out := keys' ∪ ⋃ (map listed es)]> h').
  { clear h keys Hl. induction IH as [|e es He _ IHes]; intros h' keys' Hl'; simpl.
    - rewrite union_empty_r_L. symmetry. by apply insert_id.
    - rewrite (He _ _ Hl'). cbn [snd].
      rewrite (IHes _ (keys' ∪ listed e)) by apply lookup_insert_eq.
      rewrite insert_insert_eq. f_equal.
    apply set_eq; intros x; simpl; rewrite ?elem_of_union; tauto. }
  rewrite (Hgen _ (keys ∪ list_to_set vs)) by apply lookup_insert_eq.
  rewrite insert_insert_eq. f_equal.
    apply set_eq; intros x; simpl; rewrite ?elem_of_union; tauto.
Qed.

(** The nil check at the head of the function: a nil accumulator is replaced
    by a freshly made map, after which the call proceeds as on that map. *)
Lemma ListQuorum_nil_alloc e (h : store) :
  ListQuorum e None h = ListQuorum e (Some (make_map h).1) (make_map h).2.
Proof.
  rewrite (ListQuorum_unfold e None), (ListQuorum_unfold e (Some _)).
  unfold make_map. done.
Qed.

(** C5: called with a nil accumulator, ListQuorum allocates a new map and
    returns it holding exactly the verifiers that occur in the expression at
    any depth, each once; no other map of the store is touched. *)
Theorem ListQuorum_nil (e : QuorumExpr) (h : store) :
  ∃ out keys,
    ListQuorum e None h = (out, <[out := keys]> h) ∧
    h !! out = None ∧
    ∀ v, v ∈ keys ↔ mentions e v.
Proof.
  exists (fresh (dom h)), (listed e). split; [|split].
  - rewrite ListQuorum_nil_alloc. unfold make_map. cbn [fst snd].
    rewrite (ListQuorum_store _ _ _ ∅) by apply lookup_insert_eq.
    rewrite insert_insert_eq, union_empty_l_L. done.
  - apply not_elem_of_dom, is_fresh.
  - intros v. apply listed_mentions.
Qed.

(** C10: called with a non-nil accumulator, ListQuorum returns that very map,
    updated in place: afterwards its keys are the keys it had before together
    with the verifiers that occur anywhere in the expression, so no key is
    removed; no other map of the store is touched. *)
Theorem ListQuorum_accumulates (e : QuorumExpr) (out : loc) (h : store) (keys : gset N) :
  h !! out = Some keys →
  ∃ keys',
    ListQuorum e (Some out) h = (out, <[out := keys']> h) ∧
    (∀ v, v ∈ keys' ↔ v ∈ keys ∨ mentions e v) ∧
    keys ⊆ keys'.
Proof.
  intros Hl. exists (keys ∪ listed e). split; [|split].
  - by apply ListQuorum_store.
  - intros v. rewrite elem_of_union, listed_mentions. done.
  - set_solver.
Qed.

Lemma ListQuorum_accumulates_witness :
  ∃ keys',
    ListQuorum (mkQuorumExpr 1 [] [mkQuorumExpr 2 [1; 2] []]) (Some 1%positive)
      {[1%positive := {[2; 7]}]}
    = (1%positive, <[1%positive := keys']> {[1%positive := {[2; 7]}]}) ∧
    (∀ v, v ∈ keys' ↔
          v ∈ ({[2; 7]} : gset N) ∨ mentions (mkQuorumExpr 1 [] [mkQuorumExpr 2 [1; 2] []]) v) ∧
    ({[2; 7]} : gset N) ⊆ keys'.
Proof.
  apply (ListQuorum_accumulates (mkQuorumExpr 1 [] [mkQuorumExpr 2 [1; 2] []])
           1%positive {[1%positive := {[2; 7]}]} {[2; 7]}).
  reflexivity.
Defined.

(** ** Claims about GetCommitted *)

Lemma add_within_prefix maxSize cumulative es :
  ∃ rest, es = add_within maxSize cumulative es ++ rest.
Proof.
  revert cumulative. induction es as [|e es IH]; intros c; simpl.
  - by exists [].
  - destruct (c + entry_size e <=? maxSize).
    + destruct (IH (c + entry_size e)) as [rest Hrest].
      exists rest. simpl. by f_equal.
    + by exists (e :: es).
Qed.

Lemma add_within_size maxSize cumulative es :
  add_within maxSize cumulative es ≠ [] →
  cumulative + total_size (add_within maxSize cumulative es) ≤ maxSize.
Proof.
  revert cumulative. induction es as [|e es IH]; intros c; simpl; [done|].
  destruct (N.leb_spec (c + entry_size e) maxSize) as [Hle|Hgt]; [|done].
  intros _. simpl.
  destruct (add_within maxSize (c + entry_size e) es) as [|e' es'] eqn:Haw.
  - simpl. lia.
  - specialize (IH (c + entry_size e)). rewrite Haw in IH.
    specialize (IH ltac:(done)). lia.
Qed.

Lemma add_within_stops maxSize cumulative es next :
  es !! length (add_within maxSize cumulative es) = Some next →
  maxSize < cumulative + total_size (add_within maxSize cumulative es) + entry_size next.
Proof.
  revert cumulative. induction es as [|e es IH]; intros c; simpl; [done|].
  destruct (N.leb_spec (c + entry_size e) maxSize) as [Hle|Hgt]; simpl.
  - intros Hnext. apply IH in Hnext. lia.
  - intros [= <-]. lia.
Qed.

Lemma range_lookup log lo hi (i : nat) :
  horizon log ≤ lo → (i < N.to_nat (hi - lo))%nat →
  take (N.to_nat (hi - lo)) (drop (N.to_nat (lo - horizon log)) (retained log)) !! i
  = entry_at log (lo + N.of_nat i).
Proof.
  intros Hlo Hi. rewrite lookup_take_lt, lookup_drop by done.
  unfold entry_at. destruct (N.ltb_spec (lo + N.of_nat i) (horizon log)); [lia|].
  f_equal. lia.
Qed.

(** C7: a successful GetCommitted returns the entries of consecutive slots
    starting at [lo], none at or beyond [hi]; it returns at least one entry
    when a committed entry exists in the range, whatever that entry's size;
    when it returns more than one their total size is within [maxSize]; and
    it stops only at the end of the range or when the next entry would bring
    the total over [maxSize].  For example a 50-byte first entry is returned
    alone by [GetCommitted 0 3 10]. *)
Theorem GetCommitted_contract (log : CommittedLog) (lo hi maxSize : N) (entries : list entry) :
  GetCommitted log lo hi maxSize = inr entries →
  (∀ i : nat, (i < length entries)%nat → entries !! i = entry_at log (lo + N.of_nat i)) ∧
  lo + N.of_nat (length entries) ≤ hi ∧
  ((∃ index, lo ≤ index < hi ∧ is_Some (entry_at log index)) →
     ∃ first, entries !! 0%nat = Some first ∧ entry_at log lo = Some first) ∧
  ((1 < length entries)%nat → total_size entries ≤ maxSize) ∧
  (∀ next, entries ≠ [] → lo + N.of_nat (length entries) < hi →
     entry_at log (lo + N.of_nat (length entries)) = Some next →
     maxSize < total_size entries + entry_size next) ∧
  (∀ (log0 : CommittedLog) (A : entry),
     entry_at log0 0 = Some A → entry_size A = 50 →
     GetCommitted log0 0 3 10 = inr [A]).
Proof.
  unfold GetCommitted.
  destruct (N.ltb_spec lo (horizon log)) as [|Hlo]; [done|].
  destruct (N.ltb_spec hi lo) as [|Hhi]; [done|]. cbn [orb].
  set (range := take (N.to_nat (hi - lo))
                  (drop (N.to_nat (lo - horizon log)) (retained log))).
  assert (Hrange_len : (length range ≤ N.to_nat (hi - lo))%nat).
  { unfold range. rewrite length_take. lia. }
  assert (Hrange : ∀ i : nat, (i < length range)%nat →
                     range !! i = entry_at log (lo + N.of_nat i)).
  { intros i Hi. apply range_lookup; [done|lia]. }
  intros Hget.
  assert (Hprefix : ∃ rest, range = entries ++ rest).
  { destruct range as [|first rest]; simplify_eq.
    - by exists [].
    - destruct (add_within_prefix maxSize (entry_size first) rest) as [k Hk].
      exists k. simpl. by f_equal. }
  destruct Hprefix as [rest Hprefix].
  assert (Hlen : (length entries ≤ length range)%nat).
  { rewrite Hprefix, length_app. lia. }
  split; [|split; [|split; [|split; [|split]]]].
  - intros i Hi. rewrite <- Hrange by lia.
    rewrite Hprefix, lookup_app_l by done. done.
  - lia.
  - intros (index & [Hge Hlt] & [x Hx]).
    unfold entry_at in Hx. destruct (N.ltb_spec index (horizon log)); [done|].
    apply lookup_lt_Some in Hx.
    assert (H0 : is_Some (range !! 0%nat)).
    { apply lookup_lt_is_Some. unfold range. rewrite length_take, length_drop. lia. }
    destruct H0 as [first Hfirst]. exists first.
    pose proof (Hrange 0%nat (lookup_lt_Some _ _ _ Hfirst)) as Hat.
    simpl in Hat. rewrite N.add_0_r, Hfirst in Hat.
    split; [|done].
    destruct range as [|first' rest']; simplify_eq. done.
  - intros Hmany. destruct range as [|first rest']; simplify_eq; [simpl in Hmany; lia|].
    simpl in Hmany. simpl.
    apply add_within_size. intros Hnil. rewrite Hnil in Hmany. simpl in Hmany. lia.
  - intros next Hne Hlt Hnext.
    rewrite <- (range_lookup log lo hi) in Hnext by (done || lia). fold range in Hnext.
    destruct range as [|first rest']; simplify_eq; try done.
    simpl in Hnext. apply add_within_stops in Hnext. simpl. lia.
  - clear. intros log0 A HA Hsize. unfold GetCommitted, entry_at in *.
    destruct (N.ltb_spec 0 (horizon log0)) as [|Hh]; [done|].
    assert (Hz : horizon log0 = 0) by lia. rewrite Hz in *. simpl in *.
    change (N.to_nat (0 - 0)) with 0%nat in *.
    change (N.to_nat (3 - 0)) with 3%nat.
    destruct (retained log0) as [|first rest]; [done|].
    injection HA as ->. simpl. rewrite Hsize.
    destruct rest as [|B rest]; simpl; [done|].
    destruct (N.leb_spec (50 + entry_size B) 10); [lia|done].
Qed.

Lemma GetCommitted_contract_witness :
  (∀ i : nat, (i < 2)%nat →
     [[Byte.x01; Byte.x02]; [Byte.x03]] !! i = entry_at sample_log (2 + N.of_nat i)) ∧
  2 + 2 ≤ 5 ∧
  ((∃ index, 2 ≤ index < 5 ∧ is_Some (entry_at sample_log index)) →
     ∃ first, [[Byte.x01; Byte.x02]; [Byte.x03]] !! 0%nat = Some first ∧
              entry_at sample_log 2 = Some first) ∧
  ((1 < 2)%nat → total_size [[Byte.x01; Byte.x02]; [Byte.x03]] ≤ 3) ∧
  (∀ next, [[Byte.x01; Byte.x02]; [Byte.x03]] ≠ [] → 2 + 2 < 5 →
     entry_at sample_log (2 + 2) = Some next →
     3 < total_size [[Byte.x01; Byte.x02]; [Byte.x03]] + entry_size next) ∧
  (∀ (log0 : CommittedLog) (A : entry),
     entry_at log0 0 = Some A → entry_size A = 50 →
     GetCommitted log0 0 3 10 = inr [A]).
Proof.
  apply (GetCommitted_contract sample_log 2 5 3 [[Byte.x01; Byte.x02]; [Byte.x03]]).
  reflexivity.
Defined.

(** ** The examples of the specification *)

Example spec_example_leaf :
  CheckQuorum (mkQuorumExpr 2 [1; 2; 3] []) {[1; 3]} = true.
Proof. vm_compute. reflexivity. Qed.

Example spec_example_nested :
  CheckQuorum (mkQuorumExpr 1 [] [mkQuorumExpr 2 [1; 2] []]) {[1]} = false.
Proof. vm_compute. reflexivity. Qed.

Example spec_example_zero :
  CheckQuorum (mkQuorumExpr 0 [] []) ∅ = true.
Proof. reflexivity. Qed.

Example spec_example_listed :
  listed (mkQuorumExpr 1 [] [mkQuorumExpr 2 [1; 2] []]) = {[1; 2]}.
Proof. apply (bool_decide_unpack _). vm_compute. exact I. Qed.

Example spec_example_oversized_first :
  GetCommitted (mkCommittedLog 0 [repeat Byte.x00 50; [Byte.x01]; [Byte.x02]]) 0 3 10
  = inr [repeat Byte.x00 50].
Proof. vm_compute. reflexivity. Qed.

(** ** Further properties of CheckQuorum and ListQuorum *)

Lemma verifiers_loop_agree (have have' : presence) vs remaining :
  (∀ v, v ∈ vs → (v ∈ have ↔ v ∈ have')) →
  verifiers_loop have vs remaining = verifiers_loop have' vs remaining.
Proof.
  revert remaining. induction vs as [|v vs IH]; intros r Hagree; simpl; [done|].
  rewrite (bool_decide_ext (v ∈ have) (v ∈ have')) by (apply Hagree; left).
  case_bool_decide.
  - destruct (uint64_dec r =? 0); [done|]. apply IH. intros; apply Hagree; by right.
  - apply IH. intros; apply Hagree; by right.
Qed.

Lemma CheckQuorum_agree want (have have' : presence) :
  (∀ v, mentions want v → (v ∈ have ↔ v ∈ have')) →
  CheckQuorum want have = CheckQuorum want have'.
Proof.
  induction want as [t vs es IH] using QuorumExpr_tree_ind. intros Hagree.
  rewrite !CheckQuorum_unfold. simpl.
  destruct (t =? 0); [done|].
  rewrite (verifiers_loop_agree have have') by (intros; by apply Hagree, mentions_here).
  destruct (verifiers_loop have' vs t); [done|]. f_equal.
  apply map_ext_Forall. rewrite Forall_forall in *. intros e He.
  apply IH; [done|]. intros v Hv. apply Hagree. by apply (mentions_below _ e).
Qed.

Lemma ListQuorum_nil_keys e (h h' : store) out keys :
  ListQuorum e None h = (out, h') → h' !! out = Some keys → keys = listed e.
Proof.
  rewrite ListQuorum_nil_alloc. unfold make_map. cbn [fst snd].
  rewrite (ListQuorum_store _ _ _ ∅) by apply lookup_insert_eq.
  intros [= <- <-]. rewrite lookup_insert_eq, union_empty_l_L. congruence.
Qed.

(** X: the answer of CheckQuorum depends only on the ratifications of the
    verifiers that ListQuorum collects from the expression. *)
Theorem CheckQuorum_only_listed (want : QuorumExpr) (have : presence)
    (h h' : store) (out : loc) (keys : gset N) :
  ListQuorum want None h = (out, h') → h' !! out = Some keys →
  CheckQuorum want have = CheckQuorum want (have ∩ keys).
Proof.
  intros Hlist Hkeys. rewrite (ListQuorum_nil_keys _ _ _ _ _ Hlist Hkeys).
  apply CheckQuorum_agree. intros v Hv%listed_mentions.
  rewrite elem_of_intersection. tauto.
Qed.

Lemma CheckQuorum_only_listed_witness :
  CheckQuorum (mkQuorumExpr 2 [1; 2] [mkQuorumExpr 1 [3] []]) {[2; 3; 9]} =
  CheckQuorum (mkQuorumExpr 2 [1; 2] [mkQuorumExpr 1 [3] []]) ({[2; 3; 9]} ∩ {[1; 2; 3]}).
Proof.
  apply (CheckQuorum_only_listed (mkQuorumExpr 2 [1; 2] [mkQuorumExpr 1 [3] []])
           {[2; 3; 9]} ∅ {[1%positive := {[1; 2; 3]}]} 1%positive {[1; 2; 3]}).
  - vm_compute. reflexivity.
  - reflexivity.
Defined.

(** X: a satisfied expression stays satisfied when its threshold is lowered. *)
Theorem CheckQuorum_lower_threshold (t t' : N) (vs : list N) (es : list QuorumExpr)
    (have : presence) :
  in_uint64 t → t' ≤ t →
  CheckQuorum (mkQuorumExpr t vs es) have = true →
  CheckQuorum (mkQuorumExpr t' vs es) have = true.
Proof.
  intros Ht Hle. rewrite !CheckQuorum_count by (unfold in_uint64 in *; simpl; lia).
  simpl. rewrite !N.leb_le. lia.
Qed.

Lemma CheckQuorum_lower_threshold_witness :
  CheckQuorum (mkQuorumExpr 1 [1; 2; 3] []) {[1; 3]} = true.
Proof.
  apply (CheckQuorum_lower_threshold 2 1 [1; 2; 3] [] {[1; 3]}).
  - reflexivity.
  - vm_compute. discriminate.
  - vm_compute. reflexivity.
Defined.

Lemma CheckQuorum_subseteq want (have have' : presence) :
  wf_expr want → have ⊆ have' →
  CheckQuorum want have = true → CheckQuorum want have' = true.
Proof.
  intros Hwf Hsub. revert Hwf.
  induction want as [t vs es IH] using QuorumExpr_tree_ind.
  rewrite wf_expr_unfold. intros [Ht Hes].
  rewrite !CheckQuorum_count by done. simpl in *.
  rewrite !N.leb_le. intros Hle.
  pose proof (count_present_mono have have' vs Hsub).
  assert (count_true (map (λ e, CheckQuorum e have) es)
          ≤ count_true (map (λ e, CheckQuorum e have') es))%nat.
  { apply count_true_map_mono. rewrite Forall_forall in *. auto. }
  lia.
Qed.

(** X: an expression can be satisfied at all exactly when it is satisfied by
    the ratifications of all the verifiers ListQuorum collects from it. *)
Theorem CheckQuorum_satisfiable (want : QuorumExpr) (h h' : store) (out : loc) (keys : gset N) :
  wf_expr want →
  ListQuorum want None h = (out, h') → h' !! out = Some keys →
  (∃ have, CheckQuorum want have = true) ↔ CheckQuorum want keys = true.
Proof.
  intros Hwf Hlist Hkeys. split; [|by exists keys].
  intros [have Hhave].
  rewrite (ListQuorum_nil_keys _ _ _ _ _ Hlist Hkeys) in *.
  rewrite (CheckQuorum_agree want have (have ∩ listed want)) in Hhave.
  - apply (CheckQuorum_subseteq want (have ∩ listed want)); [done| |done].
    apply intersection_subseteq_r.
  - intros v Hv%listed_mentions. rewrite elem_of_intersection. tauto.
Qed.

Lemma CheckQuorum_satisfiable_witness :
  (∃ have, CheckQuorum (mkQuorumExpr 1 [] [mkQuorumExpr 2 [1; 2] []]) have = true) ↔
  CheckQuorum (mkQuorumExpr 1 [] [mkQuorumExpr 2 [1; 2] []]) {[1; 2]} = true.
Proof.
  apply (CheckQuorum_satisfiable (mkQuorumExpr 1 [] [mkQuorumExpr 2 [1; 2] []])
           ∅ {[1%positive := {[1; 2]}]} 1%positive {[1; 2]}).
  - vm_compute. repeat split.
  - vm_compute. reflexivity.
  - reflexivity.
Defined.

(** X: collecting two expressions into one accumulator gives the same map
    in either order, and collecting an expression a second time changes
    nothing. *)
Theorem ListQuorum_sequence (e1 e2 : QuorumExpr) (out : loc) (h : store) (keys : gset N) :
  h !! out = Some keys →
  (ListQuorum e2 (Some out) (ListQuorum e1 (Some out) h).2).2
  = (ListQuorum e1 (Some out) (ListQuorum e2 (Some out) h).2).2 ∧
  (ListQuorum e1 (Some out) (ListQuorum e1 (Some out) h).2).2
  = (ListQuorum e1 (Some out) h).2 ∧
  ∃ keys',
    (ListQuorum e2 (Some out) (ListQuorum e1 (Some out) h).2).2 !! out = Some keys' ∧
    ∀ v, v ∈ keys' ↔ v ∈ keys ∨ mentions e1 v ∨ mentions e2 v.
Proof.
  intros Hl.
  rewrite (ListQuorum_store e1 out h keys), (ListQuorum_store e2 out h keys) by done.
  cbn [snd].
  rewrite (ListQuorum_store e2 out _ (keys ∪ listed e1)) by apply lookup_insert_eq.
  rewrite (ListQuorum_store e1 out _ (keys ∪ listed e2)) by apply lookup_insert_eq.
  rewrite (ListQuorum_store e1 out _ (keys ∪ listed e1)) by apply lookup_insert_eq.
  cbn [snd]. rewrite !insert_insert_eq.
  split; [|split].
  - f_equal. apply set_eq; intros x; rewrite ?elem_of_union; tauto.
  - f_equal. apply set_eq; intros x; rewrite ?elem_of_union; tauto.
  - exists (keys ∪ listed e1 ∪ listed e2). split; [apply lookup_insert_eq|].
    intros v. rewrite !elem_of_union, !listed_mentions. tauto.
Qed.

Lemma ListQuorum_sequence_witness :
  (ListQuorum (mkQuorumExpr 1 [5] []) (Some 1%positive)
     (ListQuorum (mkQuorumExpr 1 [4] []) (Some 1%positive) {[1%positive := {[2]}]}).2).2
  = (ListQuorum (mkQuorumExpr 1 [4] []) (Some 1%positive)
       (ListQuorum (mkQuorumExpr 1 [5] []) (Some 1%positive) {[1%positive := {[2]}]}).2).2 ∧
  (ListQuorum (mkQuorumExpr 1 [4] []) (Some 1%positive)
     (ListQuorum (mkQuorumExpr 1 [4] []) (Some 1%positive) {[1%positive := {[2]}]}).2).2
  = (ListQuorum (mkQuorumExpr 1 [4] []) (Some 1%positive) {[1%positive := {[2]}]}).2 ∧
  ∃ keys',
    (ListQuorum (mkQuorumExpr 1 [5] []) (Some 1%positive)
       (ListQuorum (mkQuorumExpr 1 [4] []) (Some 1%positive) {[1%positive := {[2]}]}).2).2
      !! 1%positive = Some keys' ∧
    ∀ v, v ∈ keys' ↔
         v ∈ ({[2]} : gset N) ∨ mentions (mkQuorumExpr 1 [4] []) v ∨
         mentions (mkQuorumExpr 1 [5] []) v.
Proof.
  apply (ListQuorum_sequence (mkQuorumExpr 1 [4] []) (mkQuorumExpr 1 [5] [])
           1%positive {[1%positive := {[2]}]} {[2]}).
  reflexivity.
Defined.

Lemma count_present_pos (have : presence) vs :
  (0 < count_present have vs)%nat ↔ ∃ v, v ∈ vs ∧ v ∈ have.
Proof.
  unfold count_present. split.
  - destruct (filter (λ v, v ∈ have) vs) as [|v l] eqn:Hf; simpl; [lia|]. intros _.
    assert (v ∈ filter (λ v, v ∈ have) vs) as Hv by (rewrite Hf; left).
    apply list_elem_of_filter in Hv. exists v. tauto.
  - intros (v & Hv & Hin).
    assert (v ∈ filter (λ v, v ∈ have) vs) as Hf by (by apply list_elem_of_filter).
    destruct (filter (λ v, v ∈ have) vs); [by apply elem_of_nil in Hf|simpl; lia].
Qed.

Lemma count_true_pos {A} (f : A → bool) (l : list A) :
  (0 < count_true (map f l))%nat ↔ ∃ x, x ∈ l ∧ f x = true.
Proof.
  induction l as [|x l IH]; simpl.
  - unfold count_true; simpl. split; [lia|]. intros (x & Hx & _). by apply elem_of_nil in Hx.
  - rewrite count_true_cons. destruct (f x) eqn:Hfx.
    + split; [|lia]. intros _. exists x. split; [left|done].
    + rewrite IH. split.
      * intros (y & Hy & Hfy). exists y. split; [by right|done].
      * intros (y & Hy & Hfy). apply elem_of_cons in Hy as [->|Hy]; [congruence|].
        by exists y.
Qed.

Lemma count_present_all (have : presence) vs :
  count_present have vs = length vs ↔ Forall (λ v, v ∈ have) vs.
Proof.
  induction vs as [|v vs IH]; [by split; [constructor|]|].
  rewrite count_present_cons, Forall_cons. simpl.
  pose proof (count_present_le have vs).
  case_bool_decide; [rewrite <- IH; split; [intros; split; [done|lia]|intros [_ ?]; lia]|].
  split; [lia|tauto].
Qed.

Lemma count_true_all {A} (f : A → bool) (l : list A) :
  count_true (map f l) = length l ↔ Forall (λ x, f x = true) l.
Proof.
  induction l as [|x l IH]; [by split; [constructor|]|].
  simpl. rewrite count_true_cons, Forall_cons.
  pose proof (count_true_le (map f l)) as Hle. rewrite length_map in Hle.
  destruct (f x); [rewrite <- IH; split; [intros; split; [done|lia]|intros [_ ?]; lia]|].
  split; [lia|intros [? _]; done].
Qed.

(** X: threshold 1 is a disjunction and a threshold equal to the number of
    verifiers and sub-expressions is a conjunction. *)
Theorem CheckQuorum_any_all (vs : list N) (es : list QuorumExpr) (have : presence) :
  in_uint64 (N.of_nat (length vs + length es)) →
  (CheckQuorum (mkQuorumExpr 1 vs es) have = true ↔
   (∃ v, v ∈ vs ∧ v ∈ have) ∨ (∃ e, e ∈ es ∧ CheckQuorum e have = true)) ∧
  (CheckQuorum (mkQuorumExpr (N.of_nat (length vs + length es)) vs es) have = true ↔
   Forall (λ v, v ∈ have) vs ∧ Forall (λ e, CheckQuorum e have = true) es).
Proof.
  intros Hn. split.
  - rewrite CheckQuorum_count by reflexivity. simpl. rewrite N.leb_le.
    rewrite <- count_present_pos, <- (count_true_pos (λ e, CheckQuorum e have)). lia.
  - rewrite CheckQuorum_count by done. simpl. rewrite N.leb_le.
    rewrite <- count_present_all, <- (count_true_all (λ e, CheckQuorum e have)).
    pose proof (count_present_le have vs).
    pose proof (count_true_le (map (λ e, CheckQuorum e have) es)) as Hle.
    rewrite length_map in Hle. lia.
Qed.

Lemma CheckQuorum_any_all_witness :
  (CheckQuorum (mkQuorumExpr 1 [1; 2] [mkQuorumExpr 1 [3] []]) {[3]} = true ↔
   (∃ v, v ∈ [1; 2] ∧ v ∈ ({[3]} : gset N)) ∨
   (∃ e, e ∈ [mkQuorumExpr 1 [3] []] ∧ CheckQuorum e {[3]} = true)) ∧
  (CheckQuorum (mkQuorumExpr (N.of_nat (length [1; 2] + length [mkQuorumExpr 1 [3] []]))
                  [1; 2] [mkQuorumExpr 1 [3] []]) {[3]} = true ↔
   Forall (λ v, v ∈ ({[3]} : gset N)) [1; 2] ∧
   Forall (λ e, CheckQuorum e {[3]} = true) [mkQuorumExpr 1 [3] []]).
Proof.
  apply (CheckQuorum_any_all [1; 2] [mkQuorumExpr 1 [3] []] {[3]}).
  reflexivity.
Defined.

(** * Properties of the wire format *)

Local Open Scope Z_scope.

(** ** Fixed-width integers *)

Lemma uint64_range z : 0 ≤ uint64 z < 2 ^ 64.
Proof. unfold uint64. apply Z.mod_pos_bound. reflexivity. Qed.

Lemma uint64_small z : 0 ≤ z < 2 ^ 64 → uint64 z = z.
Proof. apply Z.mod_small. Qed.

Lemma uint8_small z : 0 ≤ z < 256 → uint8 z = z.
Proof. apply Z.mod_small. Qed.

Lemma signed_range w z : 0 < w → - 2 ^ (w - 1) ≤ signed w z < 2 ^ (w - 1).
Proof.
  intros Hw. unfold signed.
  assert (2 ^ w = 2 * 2 ^ (w - 1)) as Hp.
  { rewrite <- Z.pow_succ_r by lia. f_equal. lia. }
  pose proof (Z.mod_pos_bound (z + 2 ^ (w - 1)) (2 ^ w) ltac:(lia)). lia.
Qed.

Lemma signed_mod w z : 0 < w → signed w z mod 2 ^ w = z mod 2 ^ w.
Proof.
  intros Hw. unfold signed.
  rewrite Zminus_mod_idemp_l. f_equal. lia.
Qed.

Lemma signed_testbit w z i :
  0 < w → 0 ≤ i → Z.testbit (signed w z) i = Z.testbit z (Z.min i (w - 1)).
Proof.
  intros Hw Hi.
  destruct (Z.lt_ge_cases i w) as [Hlt|Hge].
  - rewrite Z.min_l by lia.
    rewrite <- (Z.mod_pow2_bits_low (signed w z) w i) by lia.
    rewrite signed_mod by done. apply Z.mod_pow2_bits_low. lia.
  - rewrite Z.min_r by lia.
    pose proof (signed_range w z Hw) as Hr.
    assert (Hsign : Z.testbit (signed w z) (w - 1) = Z.testbit z (w - 1)).
    { rewrite <- (Z.mod_pow2_bits_low (signed w z) w (w - 1)) by lia.
      rewrite signed_mod by done. apply Z.mod_pow2_bits_low. lia. }
    rewrite <- Hsign.
    destruct (Z.neg_nonneg_cases (signed w z)) as [Hneg|Hpos].
    + assert (Hb : ∀ j, w - 1 ≤ j → Z.testbit (signed w z) j = true).
      { intros j Hj.
        replace (signed w z) with (Z.lnot (- signed w z - 1)) by (unfold Z.lnot; lia).
        rewrite Z.lnot_spec by lia. apply negb_true_iff.
        destruct (decide (- signed w z - 1 = 0)) as [->|]; [apply Z.bits_0|].
        apply Z.bits_above_log2; [lia|].
        apply Z.log2_lt_pow2; [lia|].
        apply Z.lt_le_trans with (2 ^ (w - 1)); [lia|].
        apply Z.pow_le_mono_r; lia. }
      rewrite !Hb by lia. done.
    + assert (Hb : ∀ j, w - 1 ≤ j → Z.testbit (signed w z) j = false).
      { intros j Hj.
        destruct (decide (signed w z = 0)) as [->|]; [apply Z.bits_0|].
        apply Z.bits_above_log2; [done|].
        apply Z.log2_lt_pow2; [lia|].
        apply Z.lt_le_trans with (2 ^ (w - 1)); [lia|].
        apply Z.pow_le_mono_r; lia. }
      rewrite !Hb by lia. done.
Qed.

Lemma signed_lor w a b : 0 < w → signed w (Z.lor a b) = Z.lor (signed w a) (signed w b).
Proof.
  intros Hw. apply Z.bits_inj'. intros i Hi.
  rewrite Z.lor_spec, !signed_testbit, Z.lor_spec by done. done.
Qed.

Lemma signed_id w z : 0 < w → - 2 ^ (w - 1) ≤ z < 2 ^ (w - 1) → signed w z = z.
Proof.
  intros Hw Hz. unfold signed.
  assert (2 ^ w = 2 * 2 ^ (w - 1)) as Hp.
  { rewrite <- Z.pow_succ_r by lia. f_equal. lia. }
  rewrite Z.mod_small by lia. lia.
Qed.

Lemma signed_of_mod w w' z :
  0 < w ≤ w' → signed w (z mod 2 ^ w') = signed w z.
Proof.
  intros Hw. apply Z.bits_inj'. intros i Hi.
  rewrite !signed_testbit by lia.
  apply Z.mod_pow2_bits_low. lia.
Qed.

Lemma int64_signed z : int64 z = signed 64 z.
Proof. reflexivity. Qed.

Lemma int32_signed z : int32 z = signed 32 z.
Proof. reflexivity. Qed.

Lemma uint64_lor a b : uint64 (Z.lor a b) = Z.lor (uint64 a) (uint64 b).
Proof.
  unfold uint64. rewrite <- !Z.land_ones by lia. apply Z.land_lor_distr_l.
Qed.

(** ** Seven bits at a time *)

Lemma low7_mod v : Z.land v 0x7F = v mod 2 ^ 7.
Proof. change 0x7F with (Z.ones 7). apply Z.land_ones. lia. Qed.

Lemma shiftr7_div v : Z.shiftr v 7 = v / 2 ^ 7.
Proof. apply Z.shiftr_div_pow2. lia. Qed.

Lemma shiftl_split v shift :
  0 ≤ shift →
  Z.shiftl v shift =
  Z.lor (Z.shiftl (Z.land v 0x7F) shift) (Z.shiftl (Z.shiftr v 7) (shift + 7)).
Proof.
  intros Hs. apply Z.bits_inj'. intros i Hi.
  rewrite Z.lor_spec, !Z.shiftl_spec by lia.
  change 0x7F with (Z.ones 7).
  destruct (Z.lt_ge_cases (i - shift) 0) as [Hneg|Hnn].
  - rewrite !Z.testbit_neg_r by lia. done.
  - rewrite Z.land_spec.
    destruct (Z.lt_ge_cases (i - shift) 7) as [Hlow|Hhigh].
    + rewrite Z.ones_spec_low by lia.
      rewrite (Z.testbit_neg_r _ (i - (shift + 7))) by lia.
      by rewrite andb_true_r, orb_false_r.
    + rewrite Z.ones_spec_high by lia.
      rewrite Z.shiftr_spec by lia.
      rewrite andb_false_r. simpl. f_equal. lia.
Qed.

Lemma continuation_byte c :
  0 ≤ c < 128 → Z.lor c 0x80 = c + 128 ∧ Z.land (c + 128) 0x7F = c.
Proof.
  intros Hc.
  assert (Hall : Forall (λ c, Z.lor c 0x80 = c + 128 ∧ Z.land (c + 128) 0x7F = c) (seqZ 0 128)).
  { apply (bool_decide_unpack _). vm_compute. exact I. }
  rewrite Forall_forall in Hall. apply Hall, elem_of_seqZ. lia.
Qed.

Lemma last_byte v : 0 ≤ v < 128 → Z.land v 0x7F = v.
Proof. intros Hv. rewrite low7_mod. apply Z.mod_small. lia. Qed.

(** ** The bytes of a varint *)

Lemma encodeVarintPopulate_loop_app fuel data v :
  encodeVarintPopulate_loop fuel data v = data ++ encodeVarintPopulate_loop fuel [] v.
Proof.
  revert data v. induction fuel as [|fuel IH]; intros data v; simpl.
  - destruct (2 ^ 7 <=? v); [by rewrite app_nil_r|done].
  - destruct (2 ^ 7 <=? v); [|done].
    rewrite IH, (IH [_]), <- app_assoc. done.
Qed.

Lemma varint_bytes_last fuel v :
  0 ≤ v < 128 → encodeVarintPopulate_loop fuel [] v = [v].
Proof.
  intros Hv. destruct fuel; simpl.
  all: destruct (Z.leb_spec (2 ^ 7) v); [lia|]; by rewrite uint8_small by lia.
Qed.

Lemma varint_bytes_more fuel v :
  128 ≤ v < 2 ^ 64 →
  encodeVarintPopulate_loop (S fuel) [] v =
  (v mod 2 ^ 7 + 128) :: encodeVarintPopulate_loop fuel [] (Z.shiftr v 7).
Proof.
  intros Hv. simpl.
  destruct (Z.leb_spec (2 ^ 7) v); [|lia].
  rewrite encodeVarintPopulate_loop_app. simpl. f_equal.
  rewrite uint64_small by lia. rewrite low7_mod.
  pose proof (Z.mod_pos_bound v (2 ^ 7) ltac:(lia)).
  destruct (continuation_byte (v mod 2 ^ 7) ltac:(lia)) as [-> _].
  apply uint8_small. lia.
Qed.

Lemma shiftr7_bound v k : 0 ≤ k → 0 ≤ v < 2 ^ (7 * (k + 1)) → 0 ≤ Z.shiftr v 7 < 2 ^ (7 * k).
Proof.
  intros Hk Hv. rewrite shiftr7_div. split.
  - apply Z.div_pos; lia.
  - apply Z.div_lt_upper_bound; [lia|].
    rewrite <- Z.pow_add_r by lia. replace (7 + 7 * k) with (7 * (k + 1)) by lia. lia.
Qed.

Lemma keeps_lor_uint64 : keeps_lor uint64.
Proof. intros a b. apply uint64_lor. Qed.

Lemma keeps_lor_int64 : keeps_lor int64.
Proof. intros a b. rewrite !int64_signed. by apply signed_lor. Qed.

Lemma keeps_lor_int32 : keeps_lor int32.
Proof. intros a b. rewrite !int32_signed. by apply signed_lor. Qed.

(** Reading back what the encoder wrote. *)
Lemma read_varint_loop_encoded checked conv fuel v rest shift x iNdEx :
  keeps_lor conv →
  0 ≤ v < 2 ^ 64 → v < 2 ^ (7 * (Z.of_nat fuel + 1)) →
  0 ≤ shift < 64 → v * 2 ^ shift < 2 ^ 64 →
  read_varint_loop checked conv (encodeVarintPopulate_loop fuel [] v ++ rest) shift x iNdEx
  = ReadOk (Z.lor x (conv (Z.shiftl v shift)))
      (iNdEx + Z.of_nat (length (encodeVarintPopulate_loop fuel [] v))).
Proof.
  intros Hconv. revert v shift x iNdEx.
  induction fuel as [|fuel IH]; intros v shift x iNdEx Hv Hfuel Hshift Hfit.
  - rewrite varint_bytes_last by (simpl in Hfuel; lia). simpl.
    destruct (Z.leb_spec 64 shift); [lia|]. rewrite andb_false_r.
    rewrite last_byte by (simpl in Hfuel; lia).
    destruct (Z.ltb_spec v 128); [|simpl in Hfuel; lia]. done.
  - destruct (Z.lt_ge_cases v 128) as [Hsmall|Hbig].
    + rewrite varint_bytes_last by lia. simpl.
      destruct (Z.leb_spec 64 shift); [lia|]. rewrite andb_false_r.
      rewrite last_byte by lia.
      destruct (Z.ltb_spec v 128); [|lia]. done.
    + rewrite varint_bytes_more by lia.
      pose proof (Z.mod_pos_bound v (2 ^ 7) ltac:(lia)) as Hc.
      cbn [app read_varint_loop length].
      destruct (Z.leb_spec 64 shift); [lia|]. rewrite andb_false_r.
      destruct (continuation_byte (v mod 2 ^ 7) ltac:(lia)) as [_ ->].
      destruct (Z.ltb_spec (v mod 2 ^ 7 + 128) 128); [lia|].
      assert (Hv' : 0 ≤ Z.shiftr v 7 < 2 ^ (7 * (Z.of_nat fuel + 1))).
      { apply shiftr7_bound; [lia|]. replace (Z.of_nat fuel + 1 + 1) with (Z.of_nat (S fuel) + 1) by lia. lia. }
      assert (Hpos : 1 ≤ Z.shiftr v 7).
      { rewrite shiftr7_div. apply Z.div_le_lower_bound; lia. }
      assert (Hmul : Z.shiftr v 7 * 2 ^ (shift + 7) ≤ v * 2 ^ shift).
      { rewrite shiftr7_div, Z.pow_add_r by lia.
        pose proof (Z.mul_div_le v (2 ^ 7) ltac:(lia)).
        assert (0 < 2 ^ shift) by (apply Z.pow_pos_nonneg; lia). nia. }
      assert (Hshift' : shift + 7 < 64).
      { apply (Z.pow_lt_mono_r_iff 2); [lia|lia|].
        assert (0 < 2 ^ (shift + 7)) by (apply Z.pow_pos_nonneg; lia). nia. }
      assert (Hsh : gouint (shift + 7) = shift + 7).
      { apply uint64_small. lia. }
      rewrite Hsh.
      rewrite IH; [|split; [lia|]|lia|lia|lia].
      2:{ rewrite shiftr7_div. apply Z.div_lt_upper_bound; lia. }
      f_equal; [|lia].
      rewrite <- Z.lor_assoc, <- Hconv. do 2 f_equal.
      rewrite <- low7_mod. symmetry. apply shiftl_split. lia.
Qed.

Lemma shiftr7_step fuel v :
  128 ≤ v < 2 ^ 64 → v < 2 ^ (7 * (Z.of_nat (S fuel) + 1)) →
  1 ≤ Z.shiftr v 7 < 2 ^ 64 ∧ Z.shiftr v 7 < 2 ^ (7 * (Z.of_nat fuel + 1)).
Proof.
  intros Hv Hfuel.
  pose proof (shiftr7_bound v (Z.of_nat fuel + 1) ltac:(lia)) as Hb.
  replace (Z.of_nat fuel + 1 + 1) with (Z.of_nat (S fuel) + 1) in Hb by lia.
  rewrite shiftr7_div in *.
  assert (v / 2 ^ 7 < v) by (apply Z.div_lt; lia).
  assert (1 ≤ v / 2 ^ 7) by (apply Z.div_le_lower_bound; lia).
  lia.
Qed.

Lemma varint_bytes_fuel fuel fuel' v :
  0 ≤ v < 2 ^ 64 → v < 2 ^ (7 * (Z.of_nat fuel + 1)) → (fuel ≤ fuel')%nat →
  encodeVarintPopulate_loop fuel' [] v = encodeVarintPopulate_loop fuel [] v.
Proof.
  revert fuel' v. induction fuel as [|fuel IH]; intros fuel' v Hv Hfuel Hle.
  - rewrite !varint_bytes_last by (simpl in Hfuel; lia). done.
  - destruct fuel' as [|fuel']; [lia|].
    destruct (Z.lt_ge_cases v 128) as [Hsmall|Hbig].
    + rewrite !varint_bytes_last by lia. done.
    + rewrite !varint_bytes_more by lia. f_equal.
      destruct (shiftr7_step fuel v) as [? ?]; [lia|done|].
      apply IH; lia.
Qed.

Lemma sov_loop_length fuel v n :
  0 ≤ v < 2 ^ 64 → v < 2 ^ (7 * (Z.of_nat fuel + 1)) →
  sov_loop (S fuel) v n = n + Z.of_nat (length (encodeVarintPopulate_loop fuel [] v)).
Proof.
  revert v n. induction fuel as [|fuel IH]; intros v n Hv Hfuel.
  - rewrite varint_bytes_last by (simpl in Hfuel; lia). simpl.
    rewrite Z.shiftr_div_pow2, Z.div_small by (simpl in Hfuel; lia). done.
  - destruct (Z.lt_ge_cases v 128) as [Hsmall|Hbig].
    + rewrite varint_bytes_last by lia.
      cbn [sov_loop]. rewrite Z.shiftr_div_pow2, Z.div_small by lia. done.
    + rewrite varint_bytes_more by lia.
      change (sov_loop (S (S fuel)) v n) with
        (if Z.shiftr v 7 =? 0 then n + 1 else sov_loop (S fuel) (Z.shiftr v 7) (n + 1)).
      destruct (shiftr7_step fuel v) as [? ?]; [lia|done|].
      destruct (Z.eqb_spec (Z.shiftr v 7) 0); [lia|].
      rewrite IH by lia. cbn [length]. lia.
Qed.

Lemma pow70 : 2 ^ 64 < 2 ^ 70.
Proof. reflexivity. Qed.

Lemma sov_length v :
  0 ≤ v < 2 ^ 64 → sovDuration v = Z.of_nat (length (varint_bytes v)).
Proof.
  intros Hv. unfold sovDuration, varint_bytes, encodeVarintPopulateDuration, varint_turns.
  rewrite sov_loop_length by (pose proof pow70; simpl; lia).
  rewrite (varint_bytes_fuel 9 10) by (pose proof pow70; simpl; lia). lia.
Qed.

Lemma varint_bytes_is_byte fuel v :
  0 ≤ v < 2 ^ 64 → v < 2 ^ (7 * (Z.of_nat fuel + 1)) →
  Forall is_byte (encodeVarintPopulate_loop fuel [] v).
Proof.
  revert v. induction fuel as [|fuel IH]; intros v Hv Hfuel.
  - rewrite varint_bytes_last by (simpl in Hfuel; lia).
    repeat constructor; simpl in Hfuel; lia.
  - destruct (Z.lt_ge_cases v 128) as [Hsmall|Hbig].
    + rewrite varint_bytes_last by lia. repeat constructor; lia.
    + rewrite varint_bytes_more by lia.
      pose proof (Z.mod_pos_bound v (2 ^ 7) ltac:(lia)).
      constructor; [unfold is_byte; lia|].
      destruct (shiftr7_step fuel v) as [? ?]; [lia|done|].
      apply IH; lia.
Qed.

(** ** Writing into a buffer *)

Lemma store_byte_app pre b0 post b :
  store_byte (pre ++ b0 :: post) (Z.of_nat (length pre)) b = Some (pre ++ b :: post).
Proof.
  unfold store_byte. rewrite bool_decide_eq_true_2.
  - f_equal. rewrite Nat2Z.id.
    rewrite (insert_app_r_alt pre _ (length pre)) by lia.
    by rewrite Nat.sub_diag.
  - rewrite length_app. simpl. lia.
Qed.

Lemma store_byte_out data i b :
  Z.of_nat (length data) ≤ i → store_byte data i b = None.
Proof. intros Hi. unfold store_byte. rewrite bool_decide_eq_false_2; [done|lia]. Qed.

Lemma encodeVarint_loop_writes fuel pre mid post v :
  0 ≤ v < 2 ^ 64 → v < 2 ^ (7 * (Z.of_nat fuel + 1)) →
  length mid = length (encodeVarintPopulate_loop fuel [] v) →
  encodeVarint_loop fuel (pre ++ mid ++ post) (Z.of_nat (length pre)) v =
  Some (pre ++ encodeVarintPopulate_loop fuel [] v ++ post,
        Z.of_nat (length pre) + Z.of_nat (length mid)).
Proof.
  revert pre mid v. induction fuel as [|fuel IH]; intros pre mid v Hv Hfuel Hlen.
  - rewrite varint_bytes_last in * by (simpl in Hfuel; lia).
    destruct mid as [|b0 [|??]]; simplify_eq/=.
    destruct (Z.leb_spec (2 ^ 7) v); [lia|].
    rewrite store_byte_app. simpl. rewrite uint8_small by lia. done.
  - destruct (Z.lt_ge_cases v 128) as [Hsmall|Hbig].
    + rewrite varint_bytes_last in * by lia.
      destruct mid as [|b0 [|??]]; simplify_eq/=.
      destruct (Z.leb_spec (2 ^ 7) v); [lia|].
      rewrite store_byte_app. simpl. rewrite uint8_small by lia. done.
    + rewrite varint_bytes_more in * by lia.
      destruct mid as [|b0 mid]; simplify_eq/=.
      destruct (Z.leb_spec (2 ^ 7) v); [|lia].
      rewrite store_byte_app. cbn [mbind option_bind].
      rewrite low7_mod.
      pose proof (Z.mod_pos_bound v (2 ^ 7) ltac:(lia)).
      destruct (continuation_byte (v mod 2 ^ 7) ltac:(lia)) as [-> _].
      rewrite uint8_small by lia.
      destruct (shiftr7_step fuel v) as [? ?]; [lia|done|].
      specialize (IH (pre ++ [v mod 2 ^ 7 + 128]) mid (Z.shiftr v 7)).
      rewrite <- !app_assoc in IH. simpl in IH.
      rewrite length_app in IH. simpl in IH.
      replace (Z.of_nat (length pre) + 1) with (Z.of_nat (length pre + 1)) by lia.
      rewrite IH by (done || lia).
      do 2 f_equal. lia.
Qed.

Lemma encodeVarint_loop_length fuel data offset v data' offset' :
  encodeVarint_loop fuel data offset v = Some (data', offset') → length data' = length data.
Proof.
  revert data offset v. induction fuel as [|fuel IH]; intros data offset v; simpl.
  - destruct (2 ^ 7 <=? v); [done|].
    unfold store_byte. case_bool_decide; [|done]. simpl. intros [= <- <-].
    by rewrite length_insert.
  - destruct (2 ^ 7 <=? v).
    + unfold store_byte at 1. case_bool_decide; [|done]. simpl.
      intros Henc. apply IH in Henc. by rewrite length_insert in Henc.
    + unfold store_byte. case_bool_decide; [|done]. simpl. intros [= <- <-].
      by rewrite length_insert.
Qed.

Lemma encodeVarint_loop_short fuel data offset v :
  0 ≤ v < 2 ^ 64 → v < 2 ^ (7 * (Z.of_nat fuel + 1)) →
  Z.of_nat (length data) < offset + Z.of_nat (length (encodeVarintPopulate_loop fuel [] v)) →
  encodeVarint_loop fuel data offset v = None.
Proof.
  revert data offset v. induction fuel as [|fuel IH]; intros data offset v Hv Hfuel Hlen.
  - rewrite varint_bytes_last in * by (simpl in Hfuel; lia). simpl in *.
    destruct (Z.leb_spec (2 ^ 7) v); [lia|].
    rewrite store_byte_out by lia. done.
  - destruct (Z.lt_ge_cases v 128) as [Hsmall|Hbig].
    + rewrite varint_bytes_last in * by lia. simpl in *.
      destruct (Z.leb_spec (2 ^ 7) v); [lia|].
      rewrite store_byte_out by lia. done.
    + rewrite varint_bytes_more in * by lia. cbn [length] in Hlen.
      cbn [encodeVarint_loop].
      destruct (Z.leb_spec (2 ^ 7) v); [|lia].
      destruct (store_byte data offset _) as [data'|] eqn:Hst; [|done].
      cbn [mbind option_bind].
      assert (length data' = length data) as Hl.
      { unfold store_byte in Hst. case_bool_decide; [|done]. simplify_eq.
        by rewrite length_insert. }
      destruct (shiftr7_step fuel v) as [? ?]; [lia|done|].
      apply IH; [lia|lia|]. rewrite Hl. lia.
Qed.

Lemma pow77 : 2 ^ 64 < 2 ^ (7 * (Z.of_nat varint_turns + 1)).
Proof. reflexivity. Qed.

Lemma varint_bytes_nonempty v : 0 ≤ v < 2 ^ 64 → (0 < length (varint_bytes v))%nat.
Proof.
  intros Hv. unfold varint_bytes, encodeVarintPopulateDuration, varint_turns.
  destruct (Z.lt_ge_cases v 128).
  - rewrite varint_bytes_last by lia. simpl. lia.
  - rewrite varint_bytes_more by lia. cbn [length]. lia.
Qed.

Lemma varint_bytes_small v : 0 ≤ v < 128 → varint_bytes v = [v].
Proof. apply varint_bytes_last. Qed.

Lemma encodeVarintDuration_writes pre mid post v :
  0 ≤ v < 2 ^ 64 → length mid = length (varint_bytes v) →
  encodeVarintDuration (pre ++ mid ++ post) (Z.of_nat (length pre)) v =
  Some (pre ++ varint_bytes v ++ post, Z.of_nat (length pre) + Z.of_nat (length mid)).
Proof.
  intros Hv Hlen. apply encodeVarint_loop_writes; [done| |done].
  pose proof pow77. lia.
Qed.

Lemma encodeVarintDuration_short data offset v :
  0 ≤ v < 2 ^ 64 →
  Z.of_nat (length data) < offset + Z.of_nat (length (varint_bytes v)) →
  encodeVarintDuration data offset v = None.
Proof.
  intros Hv Hlen. apply encodeVarint_loop_short; [done| |done].
  pose proof pow77. lia.
Qed.

Lemma Size_length m : Size m = Z.of_nat (length (wire_bytes m)).
Proof.
  unfold Size, wire_bytes, field_bytes. rewrite length_app.
  destruct (Seconds m =? 0), (Nanos m =? 0); simpl;
    rewrite ?sov_length by apply uint64_range; lia.
Qed.

(** Writing one field, tag first, at the end of what was written before. *)
Lemma write_field pre mid post tag value i :
  i = Z.of_nat (length pre) →
  (value =? 0) = false →
  length mid = length (field_bytes tag value) →
  (data ← store_byte (pre ++ mid ++ post) i tag;
   encodeVarintDuration data (i + 1) (uint64 value))
  = Some (pre ++ field_bytes tag value ++ post, i + Z.of_nat (length mid)).
Proof.
  intros -> Hnz Hlen. unfold field_bytes in *. rewrite Hnz in *.
  destruct mid as [|b0 mid]; simplify_eq/=.
  rewrite store_byte_app. cbn [mbind option_bind].
  pose proof (encodeVarintDuration_writes (pre ++ [tag]) mid post (uint64 value)
                (uint64_range _) ltac:(done)) as Hw.
  rewrite <- !app_assoc, length_app in Hw. simpl in Hw.
  replace (Z.of_nat (length pre) + 1) with (Z.of_nat (length pre + 1)) by lia.
  rewrite Hw. do 2 f_equal. lia.
Qed.

Lemma field_bytes_zero tag value : (value =? 0) = true → field_bytes tag value = [].
Proof. intros H. unfold field_bytes. by rewrite H. Qed.

Lemma MarshalTo_writes m buf post :
  length buf = length (wire_bytes m) →
  MarshalTo m (buf ++ post) = Some (wire_bytes m ++ post, Z.of_nat (length buf)).
Proof.
  unfold wire_bytes, MarshalTo. rewrite length_app. intros Hlen.
  destruct (Seconds m =? 0) eqn:Hs; cbn [mbind option_bind].
  - rewrite (field_bytes_zero _ _ Hs) in *. simpl in Hlen. simpl app.
    destruct (Nanos m =? 0) eqn:Hn; cbn [mbind option_bind].
    + rewrite (field_bytes_zero _ _ Hn) in *. destruct buf; [|done]. done.
    + pose proof (write_field [] buf post 16 (Nanos m) 0 eq_refl Hn Hlen) as Hw.
      cbn [app] in Hw. rewrite Hw. done.
  - set (n1 := length (field_bytes 8 (Seconds m))) in *.
    assert (Hl1 : length (take n1 buf) = n1) by (rewrite length_take; lia).
    assert (Hl2 : length (drop n1 buf) = length (field_bytes 16 (Nanos m)))
      by (rewrite length_drop; lia).
    rewrite <- (take_drop n1 buf) at 1. rewrite <- app_assoc.
    pose proof (write_field [] (take n1 buf) (drop n1 buf ++ post) 8 (Seconds m) 0
                  eq_refl Hs Hl1) as Hw.
    cbn [app] in Hw. rewrite Hw. cbn [mbind option_bind app].
    destruct (Nanos m =? 0) eqn:Hn; cbn [mbind option_bind].
    + rewrite (field_bytes_zero _ _ Hn) in *.
      destruct (drop n1 buf) eqn:Hd; [|done].
      simpl. rewrite app_nil_r. do 2 f_equal. simpl in Hlen. rewrite Hl1. lia.
    + rewrite (write_field (field_bytes 8 (Seconds m)) (drop n1 buf) post 16 (Nanos m))
        by (done || lia).
      cbn [mbind option_bind]. rewrite <- app_assoc. do 2 f_equal.
      rewrite length_drop. fold n1. lia.
Qed.

Lemma MarshalTo_short m data :
  (length data < length (wire_bytes m))%nat → MarshalTo m data = None.
Proof.
  unfold wire_bytes, MarshalTo. rewrite length_app. intros Hlen.
  destruct (Seconds m =? 0) eqn:Hs; cbn [mbind option_bind].
  - rewrite (field_bytes_zero _ _ Hs) in *. simpl in Hlen.
    destruct (Nanos m =? 0) eqn:Hn; cbn [mbind option_bind].
    + rewrite (field_bytes_zero _ _ Hn) in *. simpl in Hlen. lia.
    + unfold field_bytes in Hlen. rewrite Hn in Hlen. cbn [length] in Hlen.
      destruct (store_byte data 0 16) as [data'|] eqn:Hst; [|done].
      cbn [mbind option_bind].
      rewrite encodeVarintDuration_short; [done|apply uint64_range|].
      unfold store_byte in Hst. case_bool_decide; [|done]. simplify_eq.
      rewrite length_insert. lia.
  - set (n1 := length (field_bytes 8 (Seconds m))) in *.
    destruct (store_byte data 0 8) as [data1|] eqn:Hst; [|done].
    cbn [mbind option_bind].
    assert (length data1 = length data) as Hl1.
    { unfold store_byte in Hst. case_bool_decide; [|done]. simplify_eq.
      by rewrite length_insert. }
    destruct (decide (length data < n1)%nat) as [Hshort|Hroom].
    + rewrite encodeVarintDuration_short; [done|apply uint64_range|].
      unfold n1, field_bytes in Hshort. rewrite Hs in Hshort. cbn [length] in Hshort.
      rewrite Hl1. lia.
    + rewrite <- (take_drop n1 data) in Hst.
      assert (Hlt : length (take n1 data) = n1) by (rewrite length_take; lia).
      pose proof (write_field [] (take n1 data) (drop n1 data) 8 (Seconds m) 0
                    eq_refl Hs Hlt) as Hw.
      cbn [app] in Hw. rewrite Hst in Hw. cbn [mbind option_bind] in Hw.
      rewrite Hw. cbn [mbind option_bind].
      destruct (Nanos m =? 0) eqn:Hn; cbn [mbind option_bind].
      * rewrite (field_bytes_zero _ _ Hn) in *. simpl in Hlen. lia.
      * unfold field_bytes in Hlen. rewrite Hn in Hlen. cbn [length] in Hlen.
        destruct (store_byte _ _ 16) as [data2|] eqn:Hst2; [|done].
        cbn [mbind option_bind].
        rewrite encodeVarintDuration_short; [done|apply uint64_range|].
        unfold store_byte in Hst2. case_bool_decide; [|done]. simplify_eq.
        rewrite length_insert, length_app, length_drop, Hlt. lia.
Qed.

Lemma Marshal_wire_bytes m : Marshal m = Some (wire_bytes m).
Proof.
  unfold Marshal. rewrite Size_length, Nat2Z.id.
  pose proof (MarshalTo_writes m (replicate (length (wire_bytes m)) 0) []) as Hw.
  rewrite app_nil_r in Hw. rewrite Hw by apply length_replicate.
  cbn [mbind option_bind]. rewrite length_replicate, Nat2Z.id, app_nil_r.
  f_equal. apply take_ge. lia.
Qed.

(** ** Reading what Marshal wrote *)

Lemma read_varint_encoded checked conv pre v post i :
  keeps_lor conv → 0 ≤ v < 2 ^ 64 → i = Z.of_nat (length pre) →
  read_varint checked conv (pre ++ varint_bytes v ++ post) i
  = ReadOk (conv v) (i + Z.of_nat (length (varint_bytes v))).
Proof.
  intros Hconv Hv ->. unfold read_varint.
  pose proof (varint_bytes_nonempty v Hv) as Hne.
  rewrite !length_app.
  destruct (Z.leb_spec (Z.of_nat (length pre + (length (varint_bytes v) + length post)))
              (Z.of_nat (length pre))); [lia|].
  destruct (Z.ltb_spec (Z.of_nat (length pre)) 0); [lia|].
  rewrite Nat2Z.id, drop_app_length.
  unfold varint_bytes, encodeVarintPopulateDuration.
  rewrite read_varint_loop_encoded; [|done|done|pose proof pow77; lia|lia|lia].
  rewrite Z.lor_0_l, Z.shiftl_0_r. done.
Qed.

Lemma int64_uint64 s : - 2 ^ 63 ≤ s < 2 ^ 63 → int64 (uint64 s) = s.
Proof.
  intros Hs. rewrite int64_signed. unfold uint64.
  rewrite signed_of_mod by lia. apply signed_id; [lia|done].
Qed.

Lemma int32_uint64 n : - 2 ^ 31 ≤ n < 2 ^ 31 → int32 (uint64 n) = n.
Proof.
  intros Hn. rewrite int32_signed. unfold uint64.
  rewrite signed_of_mod by lia. apply signed_id; [lia|done].
Qed.

Lemma length_field_bytes tag value :
  (value =? 0) = false →
  Z.of_nat (length (field_bytes tag value)) = 1 + Z.of_nat (length (varint_bytes (uint64 value))).
Proof. intros H. unfold field_bytes. rewrite H. cbn [length]. lia. Qed.

Section decoding.
(** What the two decoders have in common. *)
Variable turn_of : nat → list Z → Z → Duration → turn.
Variable loop_of : nat → list Z → Z → Duration → Duration * outcome ().

Hypothesis loop_next : ∀ fuel data i m m' i',
  turn_of fuel data i m = Next m' i' →
  i < Z.of_nat (length data) →
  loop_of (S fuel) data i m = loop_of fuel data i' m'.
Hypothesis loop_end : ∀ fuel data m,
  loop_of fuel data (Z.of_nat (length data)) m = (m, Ok ()).
Hypothesis turn_seconds : ∀ fuel pre s post m i,
  - 2 ^ 63 ≤ s < 2 ^ 63 → i = Z.of_nat (length pre) →
  turn_of fuel (pre ++ (0x8 :: varint_bytes (uint64 s)) ++ post) i m
  = Next (mkDuration s (Nanos m)) (i + 1 + Z.of_nat (length (varint_bytes (uint64 s)))).
Hypothesis turn_nanos : ∀ fuel pre n post m i,
  - 2 ^ 31 ≤ n < 2 ^ 31 → i = Z.of_nat (length pre) →
  turn_of fuel (pre ++ (0x10 :: varint_bytes (uint64 n)) ++ post) i m
  = Next (mkDuration (Seconds m) n) (i + 1 + Z.of_nat (length (varint_bytes (uint64 n)))).

Lemma loop_field_seconds fuel pre s post m0 :
  - 2 ^ 63 ≤ s < 2 ^ 63 →
  loop_of (turns_of s + fuel) (pre ++ field_bytes 0x8 s ++ post) (Z.of_nat (length pre)) m0
  = loop_of fuel (pre ++ field_bytes 0x8 s ++ post)
      (Z.of_nat (length (pre ++ field_bytes 0x8 s)))
      (mkDuration (if s =? 0 then Seconds m0 else s) (Nanos m0)).
Proof.
  intros Hs. unfold turns_of. destruct (s =? 0) eqn:Hz.
  - rewrite (field_bytes_zero _ _ Hz), app_nil_r. by destruct m0.
  - rewrite length_app, Nat2Z.inj_add, length_field_bytes by done.
    unfold field_bytes. rewrite Hz.
    pose proof (varint_bytes_nonempty (uint64 s) (uint64_range _)).
    change (1 + fuel)%nat with (S fuel).
    rewrite (loop_next _ _ _ _ _ _ (turn_seconds fuel pre s post m0 _ Hs eq_refl)).
    + f_equal. lia.
    + rewrite !length_app. cbn [length]. lia.
Qed.

Lemma loop_field_nanos fuel pre n post m0 :
  - 2 ^ 31 ≤ n < 2 ^ 31 →
  loop_of (turns_of n + fuel) (pre ++ field_bytes 0x10 n ++ post) (Z.of_nat (length pre)) m0
  = loop_of fuel (pre ++ field_bytes 0x10 n ++ post)
      (Z.of_nat (length (pre ++ field_bytes 0x10 n)))
      (mkDuration (Seconds m0) (if n =? 0 then Nanos m0 else n)).
Proof.
  intros Hn. unfold turns_of. destruct (n =? 0) eqn:Hz.
  - rewrite (field_bytes_zero _ _ Hz), app_nil_r. by destruct m0.
  - rewrite length_app, Nat2Z.inj_add, length_field_bytes by done.
    unfold field_bytes. rewrite Hz.
    pose proof (varint_bytes_nonempty (uint64 n) (uint64_range _)).
    change (1 + fuel)%nat with (S fuel).
    rewrite (loop_next _ _ _ _ _ _ (turn_nanos fuel pre n post m0 _ Hn eq_refl)).
    + f_equal. lia.
    + rewrite !length_app. cbn [length]. lia.
Qed.

(** Reading a marshalled message that sits between [pre] and [post] takes
    one turn of the loop for each field on the wire. *)
Lemma loop_message fuel pre m post m0 :
  valid_message m →
  loop_of (turns_of (Seconds m) + turns_of (Nanos m) + fuel)
    (pre ++ wire_bytes m ++ post) (Z.of_nat (length pre)) m0
  = loop_of fuel (pre ++ wire_bytes m ++ post)
      (Z.of_nat (length (pre ++ wire_bytes m))) (merge_fields m m0).
Proof.
  intros [Hs Hn]. unfold wire_bytes.
  pose proof (loop_field_nanos fuel (pre ++ field_bytes 8 (Seconds m)) (Nanos m) post
              (mkDuration (if Seconds m =? 0 then Seconds m0 else Seconds m) (Nanos m0)) Hn)
    as H2.
  pose proof (loop_field_seconds (turns_of (Nanos m) + fuel) pre (Seconds m)
              (field_bytes 16 (Nanos m) ++ post) m0 Hs)
    as H1.
  rewrite <- !app_assoc in *.
  rewrite <- Nat.add_assoc, H1, H2. done.
Qed.

Lemma turns_of_le v : (turns_of v ≤ 1)%nat.
Proof. unfold turns_of. destruct (v =? 0); lia. Qed.

Lemma loop_marshalled fuel m m0 :
  valid_message m → (2 ≤ fuel)%nat →
  loop_of fuel (wire_bytes m) 0 m0 = (merge_fields m m0, Ok ()).
Proof.
  intros Hm Hfuel.
  pose proof (turns_of_le (Seconds m)). pose proof (turns_of_le (Nanos m)).
  pose proof (loop_message (fuel - (turns_of (Seconds m) + turns_of (Nanos m)))
                [] m [] m0 Hm) as Hloop.
  rewrite app_nil_r in Hloop. cbn [app length] in Hloop.
  rewrite loop_end in Hloop. rewrite <- Hloop. f_equal. lia.
Qed.

Lemma loop_marshalled_twice fuel m1 m2 m0 :
  valid_message m1 → valid_message m2 → (4 ≤ fuel)%nat →
  loop_of fuel (wire_bytes m1 ++ wire_bytes m2) 0 m0 = (merge_fields m2 (merge_fields m1 m0), Ok ()).
Proof.
  intros Hm1 Hm2 Hfuel.
  pose proof (turns_of_le (Seconds m1)). pose proof (turns_of_le (Nanos m1)).
  pose proof (turns_of_le (Seconds m2)). pose proof (turns_of_le (Nanos m2)).
  set (k1 := (turns_of (Seconds m1) + turns_of (Nanos m1))%nat) in *.
  set (k2 := (turns_of (Seconds m2) + turns_of (Nanos m2))%nat) in *.
  pose proof (loop_message (fuel - k1 - k2) (wire_bytes m1) m2 [] (merge_fields m1 m0) Hm2) as Hb.
  pose proof (loop_message (k2 + (fuel - k1 - k2)) [] m1 (wire_bytes m2) m0 Hm1) as Ha.
  rewrite app_nil_r in Hb. cbn [app length] in Ha.
  fold k1 in Ha. fold k2 in Hb.
  rewrite loop_end in Hb. rewrite <- Hb, <- Ha. f_equal. lia.
Qed.
End decoding.

Lemma read_tag checked pre tag post i :
  0 ≤ tag < 128 → i = Z.of_nat (length pre) →
  read_varint checked uint64 (pre ++ tag :: post) i = ReadOk tag (i + 1).
Proof.
  intros Htag Hi.
  pose proof (read_varint_encoded checked uint64 pre tag post i keeps_lor_uint64
                ltac:(lia) Hi) as Hr.
  rewrite varint_bytes_small in Hr by done. cbn [app length] in Hr.
  rewrite Hr. rewrite uint64_small by lia. done.
Qed.

Lemma read_value checked conv pre tag v post i :
  keeps_lor conv → 0 ≤ v < 2 ^ 64 → i = Z.of_nat (length pre) →
  read_varint checked conv (pre ++ (tag :: varint_bytes v) ++ post) (i + 1)
  = ReadOk (conv v) (i + 1 + Z.of_nat (length (varint_bytes v))).
Proof.
  intros Hconv Hv Hi.
  pose proof (read_varint_encoded checked conv (pre ++ [tag]) v post (i + 1) Hconv Hv) as Hr.
  rewrite <- !app_assoc in Hr. apply Hr.
  rewrite length_app. simpl. lia.
Qed.

Lemma Timestamp_turn_seconds fuel pre s post m i :
  - 2 ^ 63 ≤ s < 2 ^ 63 → i = Z.of_nat (length pre) →
  TimestampUnmarshal_turn fuel (pre ++ (0x8 :: varint_bytes (uint64 s)) ++ post) i m
  = Next (mkDuration s (Nanos m)) (i + 1 + Z.of_nat (length (varint_bytes (uint64 s)))).
Proof.
  intros Hs Hi. unfold TimestampUnmarshal_turn.
  rewrite <- app_comm_cons at 1.
  rewrite (read_tag true pre 8 _ i) by (done || lia).
  change (goint (Z.land 8 7) =? 4) with false.
  change (int32 (Z.shiftr 8 3) <=? 0) with false.
  change (int32 (Z.shiftr 8 3) =? 1) with true.
  change (negb (goint (Z.land 8 7) =? 0)) with false.
  cbv iota.
  rewrite (read_value true int64 pre 8 (uint64 s) post i keeps_lor_int64 (uint64_range _) Hi).
  rewrite int64_uint64 by done. done.
Qed.

Lemma Timestamp_turn_nanos fuel pre n post m i :
  - 2 ^ 31 ≤ n < 2 ^ 31 → i = Z.of_nat (length pre) →
  TimestampUnmarshal_turn fuel (pre ++ (0x10 :: varint_bytes (uint64 n)) ++ post) i m
  = Next (mkDuration (Seconds m) n) (i + 1 + Z.of_nat (length (varint_bytes (uint64 n)))).
Proof.
  intros Hn Hi. unfold TimestampUnmarshal_turn.
  rewrite <- app_comm_cons at 1.
  rewrite (read_tag true pre 16 _ i) by (done || lia).
  change (goint (Z.land 16 7) =? 4) with false.
  change (int32 (Z.shiftr 16 3) <=? 0) with false.
  change (int32 (Z.shiftr 16 3) =? 1) with false.
  change (int32 (Z.shiftr 16 3) =? 2) with true.
  change (negb (goint (Z.land 16 7) =? 0)) with false.
  cbv iota.
  rewrite (read_value true int32 pre 16 (uint64 n) post i keeps_lor_int32 (uint64_range _) Hi).
  rewrite int32_uint64 by done. done.
Qed.

Lemma Timestamp_loop_next fuel data i m m' i' :
  TimestampUnmarshal_turn fuel data i m = Next m' i' →
  i < Z.of_nat (length data) →
  TimestampUnmarshal_loop (S fuel) data i m = TimestampUnmarshal_loop fuel data i' m'.
Proof.
  intros Hturn Hi. cbn [TimestampUnmarshal_loop].
  destruct (Z.ltb_spec i (Z.of_nat (length data))); [|lia].
  by rewrite Hturn.
Qed.

Lemma Timestamp_loop_end fuel data m :
  TimestampUnmarshal_loop fuel data (Z.of_nat (length data)) m = (m, Ok ()).
Proof.
  destruct fuel; cbn [TimestampUnmarshal_loop].
  all: rewrite Z.ltb_irrefl.
  all: destruct (Z.gtb_spec (Z.of_nat (length data)) (Z.of_nat (length data))); [lia|done].
Qed.

Lemma Duration_turn_seconds fuel pre s post m i :
  - 2 ^ 63 ≤ s < 2 ^ 63 → i = Z.of_nat (length pre) →
  DurationUnmarshal_turn fuel (pre ++ (0x8 :: varint_bytes (uint64 s)) ++ post) i m
  = Next (mkDuration s (Nanos m)) (i + 1 + Z.of_nat (length (varint_bytes (uint64 s)))).
Proof.
  intros Hs Hi. unfold DurationUnmarshal_turn.
  rewrite <- app_comm_cons at 1.
  rewrite (read_tag false pre 8 _ i) by (done || lia).
  change (int32 (Z.shiftr 8 3) =? 1) with true.
  change (negb (goint (Z.land 8 7) =? 0)) with false.
  cbv iota.
  rewrite (read_value false int64 pre 8 (uint64 s) post i keeps_lor_int64 (uint64_range _) Hi).
  rewrite int64_uint64 by done. done.
Qed.

Lemma Duration_turn_nanos fuel pre n post m i :
  - 2 ^ 31 ≤ n < 2 ^ 31 → i = Z.of_nat (length pre) →
  DurationUnmarshal_turn fuel (pre ++ (0x10 :: varint_bytes (uint64 n)) ++ post) i m
  = Next (mkDuration (Seconds m) n) (i + 1 + Z.of_nat (length (varint_bytes (uint64 n)))).
Proof.
  intros Hn Hi. unfold DurationUnmarshal_turn.
  rewrite <- app_comm_cons at 1.
  rewrite (read_tag false pre 16 _ i) by (done || lia).
  change (int32 (Z.shiftr 16 3) =? 1) with false.
  change (int32 (Z.shiftr 16 3) =? 2) with true.
  change (negb (goint (Z.land 16 7) =? 0)) with false.
  cbv iota.
  rewrite (read_value false int32 pre 16 (uint64 n) post i keeps_lor_int32 (uint64_range _) Hi).
  rewrite int32_uint64 by done. done.
Qed.

Lemma Duration_loop_next fuel data i m m' i' :
  DurationUnmarshal_turn fuel data i m = Next m' i' →
  i < Z.of_nat (length data) →
  DurationUnmarshal_loop (S fuel) data i m = DurationUnmarshal_loop fuel data i' m'.
Proof.
  intros Hturn Hi. cbn [DurationUnmarshal_loop].
  destruct (Z.ltb_spec i (Z.of_nat (length data))); [|lia].
  by rewrite Hturn.
Qed.

Lemma Duration_loop_end fuel data m :
  DurationUnmarshal_loop fuel data (Z.of_nat (length data)) m = (m, Ok ()).
Proof.
  destruct fuel; cbn [DurationUnmarshal_loop]; by rewrite Z.ltb_irrefl.
Qed.

(** Round trip. *)
Theorem Timestamp_round_trip (m m0 : Timestamp) (data : list Z) (fuel : nat) :
  valid_message m → (2 ≤ fuel)%nat → Marshal m = Some data →
  TimestampUnmarshal fuel m0 data = (merge_fields m m0, Ok ()) ∧
  TimestampUnmarshal fuel (mkDuration 0 0) data = (m, Ok ()).
Proof.
  intros Hm Hfuel Hdata. rewrite Marshal_wire_bytes in Hdata. simplify_eq.
  unfold TimestampUnmarshal.
  rewrite !(loop_marshalled TimestampUnmarshal_turn TimestampUnmarshal_loop
             Timestamp_loop_next Timestamp_loop_end Timestamp_turn_seconds
             Timestamp_turn_nanos) by done.
  split; [done|]. f_equal. unfold merge_fields. destruct m as [s n]; simpl.
  destruct (Z.eqb_spec s 0), (Z.eqb_spec n 0); by subst.
Qed.

Lemma sov_loop_spec fuel x n :
  (0 < fuel)%nat → 0 ≤ x < 2 ^ (7 * Z.of_nat fuel) →
  ∃ r, sov_loop fuel x n = n + r ∧ 1 ≤ r ≤ Z.of_nat fuel ∧
       x < 2 ^ (7 * r) ∧ (1 < r → 2 ^ (7 * (r - 1)) ≤ x).
Proof.
  revert x n. induction fuel as [|fuel IH]; intros x n Hfuel Hx; [lia|].
  cbn [sov_loop]. rewrite shiftr7_div.
  destruct (Z.eqb_spec (x / 2 ^ 7) 0) as [Hz|Hnz].
  - exists 1. split; [done|]. split; [lia|].
    apply Z.div_small_iff in Hz; [|lia].
    split; [|lia]. change (2 ^ (7 * 1)) with 128. lia.
  - assert (Hq : 0 ≤ x / 2 ^ 7 < 2 ^ (7 * Z.of_nat fuel)).
    { rewrite <- shiftr7_div. apply shiftr7_bound; [lia|].
      replace (Z.of_nat fuel + 1) with (Z.of_nat (S fuel)) by lia. done. }
    assert (0 < fuel)%nat.
    { destruct fuel; [|lia]. simpl in Hq. lia. }
    destruct (IH (x / 2 ^ 7) (n + 1) ltac:(done) Hq) as (r & -> & Hr & Hlt & Hge).
    exists (r + 1). split; [lia|]. split; [lia|].
    pose proof (Z.div_mod x (2 ^ 7) ltac:(lia)) as Hdm.
    pose proof (Z.mod_pos_bound x (2 ^ 7) ltac:(lia)) as Hmod.
    replace (7 * (r + 1)) with (7 + 7 * r) by lia.
    replace (7 * (r + 1 - 1)) with (7 * r) by lia.
    rewrite Z.pow_add_r by lia.
    split; [lia|]. intros _.
    destruct (decide (r = 1)) as [->|Hr1].
    + change (2 ^ (7 * 1)) with (2 ^ 7). lia.
    + specialize (Hge ltac:(lia)).
      replace (7 * r) with (7 + 7 * (r - 1)) by lia.
      rewrite Z.pow_add_r by lia. lia.
Qed.

(** X: the size of a varint. *)
Theorem sovDuration_spec (x : Z) :
  0 ≤ x < 2 ^ 64 →
  1 ≤ sovDuration x ≤ 10 ∧
  x < 2 ^ (7 * sovDuration x) ∧
  (1 < sovDuration x → 2 ^ (7 * (sovDuration x - 1)) ≤ x).
Proof.
  intros Hx. unfold sovDuration, varint_turns.
  destruct (sov_loop_spec 10 x 0 ltac:(lia)) as (r & -> & Hr & Hlt & Hge).
  { pose proof pow70. change (7 * Z.of_nat 10) with 70. lia. }
  rewrite Z.add_0_l. done.
Qed.

Lemma lxor_ones64 y : 0 ≤ y < 2 ^ 64 → Z.lxor y (Z.ones 64) = Z.ones 64 - y.
Proof.
  intros Hy.
  assert (Z.ones 64 - y = Z.land (Z.lnot y) (Z.ones 64)) as ->.
  { rewrite Z.land_ones by lia. unfold Z.lnot.
    apply Z.mod_unique with (-1); [left|]; rewrite Z.ones_equiv; lia. }
  apply Z.bits_inj'. intros i Hi.
  rewrite Z.lxor_spec, Z.land_spec, Z.lnot_spec by done.
  destruct (Z.lt_ge_cases i 64).
  - rewrite Z.ones_spec_low by lia. by rewrite xorb_true_r, andb_true_r.
  - rewrite Z.ones_spec_high by lia.
    rewrite <- (Z.mod_small y (2 ^ 64)) by lia.
    rewrite Z.mod_pow2_bits_high by lia. done.
Qed.

(** X: soz is the size of the zig-zag encoding. *)
Theorem sozDuration_zigzag (s : Z) :
  - 2 ^ 63 ≤ s < 2 ^ 63 →
  sozDuration (uint64 s) = sovDuration (if s <? 0 then - 2 * s - 1 else 2 * s).
Proof.
  intros Hs. unfold sozDuration. f_equal.
  rewrite int64_uint64 by done.
  rewrite Z.shiftl_mul_pow2, Z.shiftr_div_pow2 by lia.
  destruct (Z.ltb_spec s 0) as [Hneg|Hpos].
  - assert (s / 2 ^ 63 = -1) as ->.
    { symmetry. apply Z.div_unique with (s + 2 ^ 63); lia. }
    assert (uint64 s = s + 2 ^ 64) as ->.
    { unfold uint64. symmetry. apply Z.mod_unique with (-1); lia. }
    assert (uint64 ((s + 2 ^ 64) * 2 ^ 1) = 2 * s + 2 ^ 64) as ->.
    { unfold uint64. symmetry. apply Z.mod_unique with 1; lia. }
    change (uint64 (-1)) with (Z.ones 64).
    rewrite lxor_ones64 by lia.
    rewrite Z.ones_equiv, uint64_small by lia. lia.
  - assert (s / 2 ^ 63 = 0) as -> by (apply Z.div_small; lia).
    rewrite (uint64_small s) by lia.
    rewrite (uint64_small (s * 2 ^ 1)) by lia.
    change (uint64 0) with 0. rewrite Z.lxor_0_r.
    rewrite uint64_small by lia. lia.
Qed.

Lemma store_byte_at pre b0 post b i :
  i = Z.of_nat (length pre) → store_byte (pre ++ b0 :: post) i b = Some (pre ++ b :: post).
Proof. intros ->. apply store_byte_app. Qed.

Lemma store_bytes_app bytes pre mid post i :
  i = Z.of_nat (length pre) → length mid = length bytes →
  store_bytes bytes (pre ++ mid ++ post) i = Some (pre ++ bytes ++ post).
Proof.
  revert pre mid i. induction bytes as [|b bytes IH]; intros pre mid i Hi Hlen.
  - destruct mid; [done|done].
  - destruct mid as [|b0 mid]; [done|]. cbn [store_bytes app].
    rewrite store_byte_at by done. cbn [mbind option_bind].
    specialize (IH (pre ++ [b]) mid (i + 1)).
    rewrite <- !app_assoc in IH. apply IH.
    + rewrite length_app. simpl. lia.
    + by injection Hlen.
Qed.

Lemma store_bytes_short bytes data i :
  bytes ≠ [] → Z.of_nat (length data) < i + Z.of_nat (length bytes) →
  store_bytes bytes data i = None.
Proof.
  revert data i. induction bytes as [|b bytes IH]; intros data i Hne Hlen; [done|].
  cbn [store_bytes].
  destruct (store_byte data i b) as [data'|] eqn:Hst; [|done].
  cbn [mbind option_bind].
  unfold store_byte in Hst. case_bool_decide; [|done]. simplify_eq.
  destruct bytes as [|b' bytes]; [simpl in Hlen; lia|].
  apply IH; [done|]. rewrite length_insert. cbn [length] in *. lia.
Qed.

Lemma encodeFixed64_store_bytes data offset v :
  encodeFixed64Duration data offset v =
  data ← store_bytes (fixed64_bytes v) data offset; Some (data, offset + 8).
Proof.
  unfold encodeFixed64Duration, fixed64_bytes. cbn [store_bytes].
  replace (offset + 1 + 1) with (offset + 2) by lia.
  replace (offset + 2 + 1) with (offset + 3) by lia.
  replace (offset + 3 + 1) with (offset + 4) by lia.
  replace (offset + 4 + 1) with (offset + 5) by lia.
  replace (offset + 5 + 1) with (offset + 6) by lia.
  replace (offset + 6 + 1) with (offset + 7) by lia.
  repeat (destruct (store_byte _ _ _); cbn [mbind option_bind]; [|done]). done.
Qed.

Lemma encodeFixed32_store_bytes data offset v :
  encodeFixed32Duration data offset v =
  data ← store_bytes (fixed32_bytes v) data offset; Some (data, offset + 4).
Proof.
  unfold encodeFixed32Duration, fixed32_bytes. cbn [store_bytes].
  replace (offset + 1 + 1) with (offset + 2) by lia.
  replace (offset + 2 + 1) with (offset + 3) by lia.
  repeat (destruct (store_byte _ _ _); cbn [mbind option_bind]; [|done]). done.
Qed.

Lemma fixed64_little_endian v : little_endian (fixed64_bytes v) = uint64 v.
Proof.
  unfold little_endian, fixed64_bytes, uint8, uint64. cbn [foldr].
  rewrite !Z.shiftr_div_pow2 by lia.
  change (2 ^ 8) with 256. change (2 ^ 16) with 65536.
  change (2 ^ 24) with 16777216.
  change (2 ^ 32) with 4294967296.
  change (2 ^ 40) with 1099511627776.
  change (2 ^ 48) with 281474976710656.
  change (2 ^ 56) with 72057594037927936.
  change (2 ^ 64) with 18446744073709551616.
  Z.div_mod_to_equations. lia.
Qed.

Lemma fixed32_little_endian v : little_endian (fixed32_bytes v) = uint32 v.
Proof.
  unfold little_endian, fixed32_bytes, uint8, uint32. cbn [foldr].
  rewrite !Z.shiftr_div_pow2 by lia.
  change (2 ^ 8) with 256. change (2 ^ 16) with 65536.
  change (2 ^ 24) with 16777216.
  change (2 ^ 32) with 4294967296.
  Z.div_mod_to_equations. lia.
Qed.

Lemma varint_bytes_shape fuel v :
  0 ≤ v < 2 ^ 64 → v < 2 ^ (7 * (Z.of_nat fuel + 1)) →
  ∃ bytes last,
    encodeVarintPopulate_loop fuel [] v = bytes ++ [last] ∧
    Forall (λ b, 128 ≤ b < 256) bytes ∧ 0 ≤ last < 128.
Proof.
  revert v. induction fuel as [|fuel IH]; intros v Hv Hfuel.
  - rewrite varint_bytes_last by (simpl in Hfuel; lia).
    exists [], v. split; [done|]. split; [constructor|simpl in Hfuel; lia].
  - destruct (Z.lt_ge_cases v 128) as [Hsmall|Hbig].
    + rewrite varint_bytes_last by lia.
      exists [], v. split; [done|]. split; [constructor|lia].
    + rewrite varint_bytes_more by lia.
      destruct (shiftr7_step fuel v) as [? ?]; [lia|done|].
      destruct (IH (Z.shiftr v 7)) as (bytes & last & -> & Hbytes & Hlast); [lia|lia|].
      pose proof (Z.mod_pos_bound v (2 ^ 7) ltac:(lia)).
      exists ((v mod 2 ^ 7 + 128) :: bytes), last. split; [done|].
      split; [constructor; [lia|done]|done].
Qed.

(** X: [encodeVarintPopulate] appends a self-delimiting group of bytes. *)
Theorem encodeVarintPopulateDuration_shape (data : list Z) (v : Z) :
  0 ≤ v < 2 ^ 64 →
  ∃ bytes last,
    encodeVarintPopulateDuration data v = data ++ bytes ++ [last] ∧
    Z.of_nat (length bytes) + 1 = sovDuration v ∧
    Forall (λ b, 128 ≤ b < 256) bytes ∧ 0 ≤ last < 128.
Proof.
  intros Hv.
  destruct (varint_bytes_shape varint_turns v Hv) as (bytes & last & Hb & Hbytes & Hlast).
  { pose proof pow77. lia. }
  exists bytes, last. split; [|split; [|done]].
  - unfold encodeVarintPopulateDuration.
    rewrite encodeVarintPopulate_loop_app, Hb. done.
  - rewrite sov_length by done. unfold varint_bytes, encodeVarintPopulateDuration.
    rewrite Hb, length_app. simpl. lia.
Qed.

Lemma encodeVarintPopulateDuration_shape_witness :
  ∃ bytes last,
    encodeVarintPopulateDuration [7] 300 = [7] ++ bytes ++ [last] ∧
    Z.of_nat (length bytes) + 1 = sovDuration 300 ∧
    Forall (λ b, 128 ≤ b < 256) bytes ∧ 0 ≤ last < 128.
Proof. apply (encodeVarintPopulateDuration_shape [7] 300). lia. Defined.

(** X: [encodeVarint] writes, in place, the bytes [encodeVarintPopulate]
    appends, [sov] of them. *)
Theorem encodeVarintDuration_spec (data : list Z) (offset : Z) (v : Z) :
  0 ≤ v < 2 ^ 64 → 0 ≤ offset →
  (offset + sovDuration v ≤ Z.of_nat (length data) →
   encodeVarintDuration data offset v =
   Some (take (Z.to_nat offset) data ++ encodeVarintPopulateDuration [] v ++
         drop (Z.to_nat (offset + sovDuration v)) data,
         offset + sovDuration v)) ∧
  (Z.of_nat (length data) < offset + sovDuration v →
   encodeVarintDuration data offset v = None).
Proof.
  intros Hv Hoff. rewrite sov_length by done. split; intros Hlen.
  - set (n := length (varint_bytes v)) in *.
    pose proof (encodeVarintDuration_writes (take (Z.to_nat offset) data)
                  (take n (drop (Z.to_nat offset) data))
                  (drop n (drop (Z.to_nat offset) data)) v Hv) as Hw.
    rewrite !take_drop in Hw.
    rewrite !length_take, length_drop in Hw.
    replace (Z.of_nat (Z.to_nat offset `min` length data)) with offset in Hw by lia.
    rewrite Hw by (fold n; lia).
    f_equal. f_equal.
    + rewrite drop_drop. do 3 f_equal. lia.
    + lia.
  - by apply encodeVarintDuration_short.
Qed.

Lemma encodeVarintDuration_spec_witness :
  (1 + sovDuration 300 ≤ Z.of_nat (length [9; 9; 9; 9]) →
   encodeVarintDuration [9; 9; 9; 9] 1 300 =
   Some (take (Z.to_nat 1) [9; 9; 9; 9] ++ encodeVarintPopulateDuration [] 300 ++
         drop (Z.to_nat (1 + sovDuration 300)) [9; 9; 9; 9],
         1 + sovDuration 300)) ∧
  (Z.of_nat (length [9; 9; 9; 9]) < 1 + sovDuration 300 →
   encodeVarintDuration [9; 9; 9; 9] 1 300 = None).
Proof. apply (encodeVarintDuration_spec [9; 9; 9; 9] 1 300); lia. Defined.

Lemma store_byte_negative data i b : i < 0 → store_byte data i b = None.
Proof. intros Hi. unfold store_byte. rewrite bool_decide_eq_false_2; [done|lia]. Qed.

Lemma uint8_is_byte z : is_byte (uint8 z).
Proof. unfold is_byte, uint8. apply Z.mod_pos_bound. lia. Qed.

(** X: [encodeFixed64] stores the eight bytes of [v], least significant
    first, and panics when they do not fit. *)
Theorem encodeFixed64Duration_spec (data : list Z) (offset : Z) (v : Z) :
  (0 ≤ offset → offset + 8 ≤ Z.of_nat (length data) →
   ∃ bytes,
     encodeFixed64Duration data offset v =
     Some (take (Z.to_nat offset) data ++ bytes ++ drop (Z.to_nat offset + 8) data,
           offset + 8) ∧
     length bytes = 8%nat ∧ Forall is_byte bytes ∧ little_endian bytes = uint64 v) ∧
  (offset < 0 ∨ Z.of_nat (length data) < offset + 8 →
   encodeFixed64Duration data offset v = None).
Proof.
  rewrite encodeFixed64_store_bytes. split.
  - intros Hoff Hlen. exists (fixed64_bytes v).
    split; [|split; [done|split; [|apply fixed64_little_endian]]].
    + pose proof (store_bytes_app (fixed64_bytes v) (take (Z.to_nat offset) data)
                    (take 8 (drop (Z.to_nat offset) data))
                    (drop 8 (drop (Z.to_nat offset) data)) offset) as Hw.
      rewrite !take_drop in Hw. rewrite Hw.
      * cbn [mbind option_bind]. rewrite drop_drop. done.
      * rewrite length_take. lia.
      * rewrite length_take, length_drop. unfold fixed64_bytes. cbn [length]. lia.
    + repeat constructor; apply uint8_is_byte.
  - intros [Hneg|Hshort].
    + unfold fixed64_bytes. cbn [store_bytes]. by rewrite store_byte_negative.
    + destruct (Z.lt_ge_cases offset 0) as [Hneg|Hoff].
      * unfold fixed64_bytes. cbn [store_bytes]. by rewrite store_byte_negative.
      * rewrite store_bytes_short; [done|done|]. cbn [length fixed64_bytes fixed32_bytes]. lia.
Qed.

Lemma encodeFixed64Duration_spec_witness :
  (0 ≤ 1 → 1 + 8 ≤ Z.of_nat (length (replicate 10 0)) →
   ∃ bytes,
     encodeFixed64Duration (replicate 10 0) 1 258 =
     Some (take (Z.to_nat 1) (replicate 10 0) ++ bytes ++
           drop (Z.to_nat 1 + 8) (replicate 10 0), 1 + 8) ∧
     length bytes = 8%nat ∧ Forall is_byte bytes ∧ little_endian bytes = uint64 258) ∧
  (1 < 0 ∨ Z.of_nat (length (replicate 10 0)) < 1 + 8 →
   encodeFixed64Duration (replicate 10 0) 1 258 = None).
Proof. apply (encodeFixed64Duration_spec (replicate 10 0) 1 258). Defined.

(** X: [encodeFixed32] stores the four bytes of [v], least significant
    first, and panics when they do not fit. *)
Theorem encodeFixed32Duration_spec (data : list Z) (offset : Z) (v : Z) :
  (0 ≤ offset → offset + 4 ≤ Z.of_nat (length data) →
   ∃ bytes,
     encodeFixed32Duration data offset v =
     Some (take (Z.to_nat offset) data ++ bytes ++ drop (Z.to_nat offset + 4) data,
           offset + 4) ∧
     length bytes = 4%nat ∧ Forall is_byte bytes ∧ little_endian bytes = uint32 v) ∧
  (offset < 0 ∨ Z.of_nat (length data) < offset + 4 →
   encodeFixed32Duration data offset v = None).
Proof.
  rewrite encodeFixed32_store_bytes. split.
  - intros Hoff Hlen. exists (fixed32_bytes v).
    split; [|split; [done|split; [|apply fixed32_little_endian]]].
    + pose proof (store_bytes_app (fixed32_bytes v) (take (Z.to_nat offset) data)
                    (take 4 (drop (Z.to_nat offset) data))
                    (drop 4 (drop (Z.to_nat offset) data)) offset) as Hw.
      rewrite !take_drop in Hw. rewrite Hw.
      * cbn [mbind option_bind]. rewrite drop_drop. done.
      * rewrite length_take. lia.
      * rewrite length_take, length_drop. unfold fixed32_bytes. cbn [length]. lia.
    + repeat constructor; apply uint8_is_byte.
  - intros [Hneg|Hshort].
    + unfold fixed32_bytes. cbn [store_bytes]. by rewrite store_byte_negative.
    + destruct (Z.lt_ge_cases offset 0) as [Hneg|Hoff].
      * unfold fixed32_bytes. cbn [store_bytes]. by rewrite store_byte_negative.
      * rewrite store_bytes_short; [done|done|]. cbn [length fixed64_bytes fixed32_bytes]. lia.
Qed.

Lemma encodeFixed32Duration_spec_witness :
  (0 ≤ 0 → 0 + 4 ≤ Z.of_nat (length [1; 2; 3; 4; 5]) →
   ∃ bytes,
     encodeFixed32Duration [1; 2; 3; 4; 5] 0 258 =
     Some (take (Z.to_nat 0) [1; 2; 3; 4; 5] ++ bytes ++
           drop (Z.to_nat 0 + 4) [1; 2; 3; 4; 5], 0 + 4) ∧
     length bytes = 4%nat ∧ Forall is_byte bytes ∧ little_endian bytes = uint32 258) ∧
  (0 < 0 ∨ Z.of_nat (length [1; 2; 3; 4; 5]) < 0 + 4 →
   encodeFixed32Duration [1; 2; 3; 4; 5] 0 258 = None).
Proof. apply (encodeFixed32Duration_spec [1; 2; 3; 4; 5] 0 258). Defined.

Lemma varint_bytes_all_bytes v : 0 ≤ v < 2 ^ 64 → Forall is_byte (varint_bytes v).
Proof.
  intros Hv. apply varint_bytes_is_byte; [done|]. pose proof pow77. lia.
Qed.

Lemma wire_bytes_all_bytes m : Forall is_byte (wire_bytes m).
Proof.
  unfold wire_bytes, field_bytes. apply Forall_app. split.
  - destruct (Seconds m =? 0); [constructor|].
    constructor; [unfold is_byte; lia|]. apply varint_bytes_all_bytes, uint64_range.
  - destruct (Nanos m =? 0); [constructor|].
    constructor; [unfold is_byte; lia|]. apply varint_bytes_all_bytes, uint64_range.
Qed.

Lemma wire_bytes_nil m : wire_bytes m = [] ↔ Seconds m = 0 ∧ Nanos m = 0.
Proof.
  unfold wire_bytes, field_bytes.
  destruct (Z.eqb_spec (Seconds m) 0), (Z.eqb_spec (Nanos m) 0); simpl; split;
    intros; try done; try tauto.
  all: by destruct H.
Qed.

(** X: [Marshal] never panics; it returns [Size] bytes, none for the zero
    message and at most 22. *)
Theorem Marshal_size (m : Duration) :
  ∃ data,
    Marshal m = Some data ∧
    Z.of_nat (length data) = Size m ∧
    Forall is_byte data ∧
    (data = [] ↔ Seconds m = 0 ∧ Nanos m = 0) ∧
    Size m ≤ 22.
Proof.
  exists (wire_bytes m). split; [apply Marshal_wire_bytes|].
  split; [symmetry; apply Size_length|].
  split; [apply wire_bytes_all_bytes|].
  split; [apply wire_bytes_nil|].
  unfold Size.
  pose proof (sovDuration_spec (uint64 (Seconds m)) (uint64_range _)) as [? _].
  pose proof (sovDuration_spec (uint64 (Nanos m)) (uint64_range _)) as [? _].
  destruct (Seconds m =? 0), (Nanos m =? 0); lia.
Qed.

(** X: [MarshalTo] needs a buffer of [Size] bytes: it fills the first [Size]
    bytes with what [Marshal] returns and leaves the rest alone, and panics
    on a shorter buffer. *)
Theorem MarshalTo_buffer (m : Duration) (data : list Z) :
  (Size m ≤ Z.of_nat (length data) →
   ∃ written,
     Marshal m = Some written ∧
     MarshalTo m data = Some (written ++ drop (Z.to_nat (Size m)) data, Size m)) ∧
  (Z.of_nat (length data) < Size m → MarshalTo m data = None).
Proof.
  rewrite Size_length, Nat2Z.id. split; intros Hlen.
  - exists (wire_bytes m). split; [apply Marshal_wire_bytes|].
    rewrite <- (take_drop (length (wire_bytes m)) data) at 1.
    rewrite MarshalTo_writes by (rewrite length_take; lia).
    rewrite length_take. do 2 f_equal. lia.
  - apply MarshalTo_short. lia.
Qed.

Lemma MarshalTo_buffer_witness :
  (Size (mkDuration 300 (-1)) ≤ Z.of_nat (length (replicate 20 7)) →
   ∃ written,
     Marshal (mkDuration 300 (-1)) = Some written ∧
     MarshalTo (mkDuration 300 (-1)) (replicate 20 7) =
     Some (written ++ drop (Z.to_nat (Size (mkDuration 300 (-1)))) (replicate 20 7),
           Size (mkDuration 300 (-1)))) ∧
  (Z.of_nat (length (replicate 20 7)) < Size (mkDuration 300 (-1)) →
   MarshalTo (mkDuration 300 (-1)) (replicate 20 7) = None).
Proof. apply (MarshalTo_buffer (mkDuration 300 (-1)) (replicate 20 7)). Defined.

Lemma merge_fields_zero m : merge_fields m (mkDuration 0 0) = m.
Proof.
  unfold merge_fields. destruct m as [s n]; simpl.
  destruct (Z.eqb_spec s 0), (Z.eqb_spec n 0); by subst.
Qed.

Lemma Timestamp_loop_wire_bytes fuel m m0 :
  valid_message m → (2 ≤ fuel)%nat →
  TimestampUnmarshal_loop fuel (wire_bytes m) 0 m0 = (merge_fields m m0, Ok ()).
Proof.
  apply (loop_marshalled TimestampUnmarshal_turn TimestampUnmarshal_loop
           Timestamp_loop_next Timestamp_loop_end Timestamp_turn_seconds
           Timestamp_turn_nanos).
Qed.

Lemma Duration_loop_wire_bytes fuel m m0 :
  valid_message m → (2 ≤ fuel)%nat →
  DurationUnmarshal_loop fuel (wire_bytes m) 0 m0 = (merge_fields m m0, Ok ()).
Proof.
  apply (loop_marshalled DurationUnmarshal_turn DurationUnmarshal_loop
           Duration_loop_next Duration_loop_end Duration_turn_seconds
           Duration_turn_nanos).
Qed.

(** X: [Duration.Unmarshal] reads back what [Marshal] wrote. *)
Theorem Duration_round_trip (m m0 : Duration) (data : list Z) (fuel : nat) :
  valid_message m → (2 ≤ fuel)%nat → Marshal m = Some data →
  DurationUnmarshal fuel m0 data = (merge_fields m m0, Ok ()) ∧
  DurationUnmarshal fuel (mkDuration 0 0) data = (m, Ok ()).
Proof.
  intros Hm Hfuel Hdata. rewrite Marshal_wire_bytes in Hdata. simplify_eq.
  unfold DurationUnmarshal. rewrite !Duration_loop_wire_bytes by done.
  by rewrite merge_fields_zero.
Qed.

(** X: decoding the concatenation of two encodings merges the messages. *)
Theorem Unmarshal_concatenation (m1 m2 m0 : Duration) (data1 data2 : list Z) (fuel : nat) :
  valid_message m1 → valid_message m2 → (4 ≤ fuel)%nat →
  Marshal m1 = Some data1 → Marshal m2 = Some data2 →
  TimestampUnmarshal fuel m0 (data1 ++ data2) = (merge_fields m2 (merge_fields m1 m0), Ok ()) ∧
  DurationUnmarshal fuel m0 (data1 ++ data2) = (merge_fields m2 (merge_fields m1 m0), Ok ()).
Proof.
  intros Hm1 Hm2 Hfuel Hd1 Hd2. rewrite Marshal_wire_bytes in Hd1, Hd2. simplify_eq.
  split.
  - apply (loop_marshalled_twice TimestampUnmarshal_turn TimestampUnmarshal_loop
             Timestamp_loop_next Timestamp_loop_end Timestamp_turn_seconds
             Timestamp_turn_nanos); done.
  - apply (loop_marshalled_twice DurationUnmarshal_turn DurationUnmarshal_loop
             Duration_loop_next Duration_loop_end Duration_turn_seconds
             Duration_turn_nanos); done.
Qed.

(** X: [Marshal] is injective on messages whose fields fit their types. *)
Theorem Marshal_injective (m m' : Duration) :
  valid_message m → valid_message m' → Marshal m = Marshal m' → m = m'.
Proof.
  intros Hm Hm' Heq. rewrite !Marshal_wire_bytes in Heq. simplify_eq.
  pose proof (Timestamp_loop_wire_bytes 2 m (mkDuration 0 0) Hm ltac:(lia)) as H1.
  pose proof (Timestamp_loop_wire_bytes 2 m' (mkDuration 0 0) Hm' ltac:(lia)) as H2.
  rewrite Heq, H2, !merge_fields_zero in H1. by simplify_eq.
Qed.

Lemma valid_sample : valid_message (mkDuration 300 (-1)).
Proof. unfold valid_message; simpl; lia. Qed.

Lemma equal_pointers_spec this that1 :
  equal_pointers this that1 = true ↔ verbose_equal_pointers this that1 = None.
Proof.
  destruct this as [[s n]|], that1 as [[s' n']|]; simpl; try done.
  destruct (s =? s'); simpl; [|done]. destruct (n =? n'); simpl; done.
Qed.

(** X: [VerboseEqual] returns nil exactly when [Equal] returns true; on two
    messages it is equality of the fields. *)
Theorem VerboseEqual_agrees_with_Equal (this : option Duration) (that : interface_value) :
  (DurationVerboseEqual this that = None ↔ DurationEqual this that = true) ∧
  (TimestampVerboseEqual this that = None ↔ TimestampEqual this that = true) ∧
  (∀ a b, DurationEqual (Some a) (PointerTo (Some b)) = true ↔ a = b) ∧
  (∀ a b, TimestampEqual (Some a) (ValueOf b) = true ↔ a = b) ∧
  (∀ b, DurationEqual this (ValueOf b) = false).
Proof.
  split; [|split; [|split; [|split]]].
  - destruct that as [|that1|that2|]; cbn [DurationVerboseEqual DurationEqual]; try done.
    + by destruct this.
    + symmetry. apply equal_pointers_spec.
  - destruct that as [|that1|that2|]; cbn [TimestampVerboseEqual TimestampEqual]; try done.
    + by destruct this.
    + symmetry. apply equal_pointers_spec.
    + symmetry. apply (equal_pointers_spec this (Some that2)).
  - intros [s n] [s' n']. simpl.
    destruct (Z.eqb_spec s s'), (Z.eqb_spec n n'); simpl; split; intros; simplify_eq; done.
  - intros [s n] [s' n']. simpl.
    destruct (Z.eqb_spec s s'), (Z.eqb_spec n n'); simpl; split; intros; simplify_eq; done.
  - done.
Qed.

(** ** Fields the decoders do not know *)

Lemma pass_varint_loop_encoded checked fuel v rest shift iNdEx :
  0 ≤ v < 2 ^ 64 → v < 2 ^ (7 * (Z.of_nat fuel + 1)) →
  0 ≤ shift < 64 → v * 2 ^ shift < 2 ^ 64 →
  pass_varint_loop checked (encodeVarintPopulate_loop fuel [] v ++ rest) shift iNdEx
  = Ok (iNdEx + Z.of_nat (length (encodeVarintPopulate_loop fuel [] v))).
Proof.
  revert v shift iNdEx.
  induction fuel as [|fuel IH]; intros v shift iNdEx Hv Hfuel Hshift Hfit.
  - rewrite varint_bytes_last by (simpl in Hfuel; lia). simpl.
    destruct (Z.leb_spec 64 shift); [lia|]. rewrite andb_false_r.
    destruct (Z.ltb_spec v 128); [|simpl in Hfuel; lia]. done.
  - destruct (Z.lt_ge_cases v 128) as [Hsmall|Hbig].
    + rewrite varint_bytes_last by lia. simpl.
      destruct (Z.leb_spec 64 shift); [lia|]. rewrite andb_false_r.
      destruct (Z.ltb_spec v 128); [|lia]. done.
    + rewrite varint_bytes_more by lia.
      pose proof (Z.mod_pos_bound v (2 ^ 7) ltac:(lia)) as Hc.
      cbn [app pass_varint_loop length].
      destruct (Z.leb_spec 64 shift); [lia|]. rewrite andb_false_r.
      destruct (Z.ltb_spec (v mod 2 ^ 7 + 128) 128); [lia|].
      destruct (shiftr7_step fuel v) as [? ?]; [lia|done|].
      assert (Hmul : Z.shiftr v 7 * 2 ^ (shift + 7) ≤ v * 2 ^ shift).
      { rewrite shiftr7_div, Z.pow_add_r by lia.
        pose proof (Z.mul_div_le v (2 ^ 7) ltac:(lia)).
        assert (0 < 2 ^ shift) by (apply Z.pow_pos_nonneg; lia). nia. }
      assert (Hshift' : shift + 7 < 64).
      { apply (Z.pow_lt_mono_r_iff 2); [lia|lia|].
        assert (0 < 2 ^ (shift + 7)) by (apply Z.pow_pos_nonneg; lia). nia. }
      assert (Hsh : gouint (shift + 7) = shift + 7) by (apply uint64_small; lia).
      rewrite Hsh, IH by lia. f_equal. lia.
Qed.

Lemma pass_varint_encoded checked pre v post i :
  0 ≤ v < 2 ^ 64 → i = Z.of_nat (length pre) →
  pass_varint checked (pre ++ varint_bytes v ++ post) i
  = Ok (i + Z.of_nat (length (varint_bytes v))).
Proof.
  intros Hv ->. unfold pass_varint.
  pose proof (varint_bytes_nonempty v Hv) as Hne.
  rewrite !length_app.
  destruct (Z.leb_spec (Z.of_nat (length pre + (length (varint_bytes v) + length post)))
              (Z.of_nat (length pre))); [lia|].
  destruct (Z.ltb_spec (Z.of_nat (length pre)) 0); [lia|].
  rewrite Nat2Z.id, drop_app_length.
  unfold varint_bytes, encodeVarintPopulateDuration.
  apply pass_varint_loop_encoded; [done|pose proof pow77; lia|lia|lia].
Qed.

Lemma tag_wire_type f wt : 0 ≤ wt < 8 → Z.land (8 * f + wt) 0x7 = wt.
Proof.
  intros Hwt. change 0x7 with (Z.ones 3). rewrite Z.land_ones by lia.
  change (2 ^ 3) with 8. rewrite Z.add_comm, Z.mul_comm, Z.mod_add by lia.
  apply Z.mod_small. lia.
Qed.

Lemma tag_field_number f wt : 0 ≤ wt < 8 → Z.shiftr (8 * f + wt) 3 = f.
Proof.
  intros Hwt. rewrite Z.shiftr_div_pow2 by lia. change (2 ^ 3) with 8.
  rewrite Z.add_comm, Z.mul_comm, Z.div_add by lia.
  rewrite Z.div_small by lia. lia.
Qed.

Lemma goint_small z : - 2 ^ 63 ≤ z < 2 ^ 63 → goint z = z.
Proof. intros Hz. unfold goint. rewrite int64_signed. by apply signed_id. Qed.

Lemma int32_small z : - 2 ^ 31 ≤ z < 2 ^ 31 → int32 z = z.
Proof. intros Hz. rewrite int32_signed. by apply signed_id. Qed.

Lemma keeps_lor_goint : keeps_lor goint.
Proof. apply keeps_lor_int64. Qed.

Lemma field_payload_wire_type wt payload :
  field_payload wt payload → wt = 0 ∨ wt = 1 ∨ wt = 2 ∨ wt = 5.
Proof. destruct 1; lia. Qed.

(** [skip] steps over a whole field, tag and value. *)
Lemma skipTimestamp_field fuel f wt payload post :
  0 ≤ f < 2 ^ 60 → field_payload wt payload →
  Z.of_nat (length payload) < 2 ^ 62 →
  skipTimestamp (S fuel) (varint_bytes (8 * f + wt) ++ payload ++ post)
  = Ok (Z.of_nat (length (varint_bytes (8 * f + wt))) + Z.of_nat (length payload)).
Proof.
  intros Hf Hp Hlen.
  pose proof (field_payload_wire_type _ _ Hp) as Hwt.
  assert (Htag : 0 ≤ 8 * f + wt < 2 ^ 64) by lia.
  pose proof (varint_bytes_nonempty _ Htag) as Hne.
  assert (Htl : Z.of_nat (length (varint_bytes (8 * f + wt))) ≤ 10).
  { rewrite <- sov_length by done. apply sovDuration_spec. done. }
  cbn [skipTimestamp].
  destruct (Z.ltb_spec 0 (Z.of_nat (length (varint_bytes (8 * f + wt) ++ payload ++ post))))
    as [_|Hl]; [|rewrite length_app in Hl; lia].
  pose proof (read_varint_encoded true uint64 [] (8 * f + wt) (payload ++ post) 0
                keeps_lor_uint64 Htag eq_refl) as Hrt.
  cbn [app] in Hrt. rewrite Hrt. clear Hrt.
  rewrite uint64_small by done. rewrite tag_wire_type by lia.
  rewrite Z.add_0_l.
  set (tag := varint_bytes (8 * f + wt)) in *.
  destruct Hp as [v Hv|bytes Hb|bytes|bytes Hb].
  - change (goint 0 =? 0) with true. cbv iota.
    rewrite (pass_varint_encoded true tag v post _ Hv eq_refl). done.
  - change (goint 1 =? 0) with false. change (goint 1 =? 1) with true. cbv iota.
    rewrite goint_small by lia. rewrite Hb. done.
  - change (goint 2 =? 0) with false. change (goint 2 =? 1) with false.
    change (goint 2 =? 2) with true. cbv iota.
    rewrite length_app in Hlen.
    assert (Hn : 0 ≤ Z.of_nat (length bytes) < 2 ^ 64) by lia.
    pose proof (read_varint_encoded true goint tag (Z.of_nat (length bytes)) (bytes ++ post)
                  _ keeps_lor_goint Hn eq_refl) as Hr.
    rewrite <- app_assoc. rewrite Hr.
    rewrite (goint_small (Z.of_nat (length bytes))) by lia.
    destruct (Z.ltb_spec (Z.of_nat (length bytes)) 0); [lia|].
    rewrite goint_small by lia. rewrite length_app. f_equal. lia.
  - change (goint 5 =? 0) with false. change (goint 5 =? 1) with false.
    change (goint 5 =? 2) with false. change (goint 5 =? 3) with false.
    change (goint 5 =? 4) with false. change (goint 5 =? 5) with true. cbv iota.
    rewrite goint_small by lia. rewrite Hb. done.
Qed.

Lemma skipDuration_field fuel f wt payload post :
  0 ≤ f < 2 ^ 60 → field_payload wt payload →
  Z.of_nat (length payload) < 2 ^ 62 →
  skipDuration (S fuel) (varint_bytes (8 * f + wt) ++ payload ++ post)
  = Ok (Z.of_nat (length (varint_bytes (8 * f + wt))) + Z.of_nat (length payload)).
Proof.
  intros Hf Hp Hlen.
  pose proof (field_payload_wire_type _ _ Hp) as Hwt.
  assert (Htag : 0 ≤ 8 * f + wt < 2 ^ 64) by lia.
  pose proof (varint_bytes_nonempty _ Htag) as Hne.
  assert (Htl : Z.of_nat (length (varint_bytes (8 * f + wt))) ≤ 10).
  { rewrite <- sov_length by done. apply sovDuration_spec. done. }
  cbn [skipDuration].
  destruct (Z.ltb_spec 0 (Z.of_nat (length (varint_bytes (8 * f + wt) ++ payload ++ post))))
    as [_|Hl]; [|rewrite length_app in Hl; lia].
  pose proof (read_varint_encoded false uint64 [] (8 * f + wt) (payload ++ post) 0
                keeps_lor_uint64 Htag eq_refl) as Hrt.
  cbn [app] in Hrt. rewrite Hrt. clear Hrt.
  rewrite uint64_small by done. rewrite tag_wire_type by lia.
  rewrite Z.add_0_l.
  set (tag := varint_bytes (8 * f + wt)) in *.
  destruct Hp as [v Hv|bytes Hb|bytes|bytes Hb].
  - change (goint 0 =? 0) with true. cbv iota.
    rewrite (pass_varint_encoded false tag v post _ Hv eq_refl). done.
  - change (goint 1 =? 0) with false. change (goint 1 =? 1) with true. cbv iota.
    rewrite goint_small by lia. rewrite Hb. done.
  - change (goint 2 =? 0) with false. change (goint 2 =? 1) with false.
    change (goint 2 =? 2) with true. cbv iota.
    rewrite length_app in Hlen.
    assert (Hn : 0 ≤ Z.of_nat (length bytes) < 2 ^ 64) by lia.
    pose proof (read_varint_encoded false goint tag (Z.of_nat (length bytes)) (bytes ++ post)
                  _ keeps_lor_goint Hn eq_refl) as Hr.
    rewrite <- app_assoc. rewrite Hr.
    rewrite (goint_small (Z.of_nat (length bytes))) by lia.
    rewrite goint_small by lia. rewrite length_app. f_equal. lia.
  - change (goint 5 =? 0) with false. change (goint 5 =? 1) with false.
    change (goint 5 =? 2) with false. change (goint 5 =? 3) with false.
    change (goint 5 =? 4) with false. change (goint 5 =? 5) with true. cbv iota.
    rewrite goint_small by lia. rewrite Hb. done.
Qed.

Lemma slice_from_app pre rest i :
  i = Z.of_nat (length pre) → slice_from (pre ++ rest) i = Some rest.
Proof.
  intros ->. unfold slice_from. rewrite bool_decide_eq_true_2.
  - by rewrite Nat2Z.id, drop_app_length.
  - rewrite length_app. lia.
Qed.

Lemma Timestamp_turn_unknown fuel pre f wt payload post m i :
  3 ≤ f < 2 ^ 31 → field_payload wt payload →
  Z.of_nat (length (pre ++ (varint_bytes (8 * f + wt) ++ payload) ++ post)) < 2 ^ 62 →
  i = Z.of_nat (length pre) →
  TimestampUnmarshal_turn (S fuel) (pre ++ (varint_bytes (8 * f + wt) ++ payload) ++ post) i m
  = Next m (i + Z.of_nat (length (varint_bytes (8 * f + wt) ++ payload))).
Proof.
  intros Hf Hp Hlen Hi.
  pose proof (field_payload_wire_type _ _ Hp) as Hwt.
  assert (Htag : 0 ≤ 8 * f + wt < 2 ^ 64) by lia.
  rewrite !length_app in Hlen.
  unfold TimestampUnmarshal_turn.
  rewrite <- !app_assoc.
  rewrite (read_varint_encoded true uint64 pre (8 * f + wt) (payload ++ post) i
             keeps_lor_uint64 Htag Hi).
  rewrite uint64_small by done.
  rewrite tag_wire_type, tag_field_number by lia.
  rewrite goint_small, int32_small by lia.
  destruct (Z.eqb_spec wt 4); [lia|].
  destruct (Z.leb_spec f 0); [lia|].
  destruct (Z.eqb_spec f 1); [lia|].
  destruct (Z.eqb_spec f 2); [lia|].
  rewrite slice_from_app by done.
  rewrite skipTimestamp_field by (done || lia).
  match goal with |- context [?a + ?b <? 0] => destruct (Z.ltb_spec (a + b) 0); [lia|] end.
  rewrite goint_small by lia.
  match goal with |- context [?a >? ?b] => destruct (Z.gtb_spec a b) end.
  - rewrite !length_app in *. lia.
  - rewrite length_app. f_equal. lia.
Qed.

Lemma Duration_turn_unknown fuel pre f wt payload post m i :
  3 ≤ f < 2 ^ 31 → field_payload wt payload →
  Z.of_nat (length (pre ++ (varint_bytes (8 * f + wt) ++ payload) ++ post)) < 2 ^ 62 →
  i = Z.of_nat (length pre) →
  DurationUnmarshal_turn (S fuel) (pre ++ (varint_bytes (8 * f + wt) ++ payload) ++ post) i m
  = Next m (i + Z.of_nat (length (varint_bytes (8 * f + wt) ++ payload))).
Proof.
  intros Hf Hp Hlen Hi.
  pose proof (field_payload_wire_type _ _ Hp) as Hwt.
  assert (Htag : 0 ≤ 8 * f + wt < 2 ^ 64) by lia.
  rewrite !length_app in Hlen.
  unfold DurationUnmarshal_turn.
  rewrite <- !app_assoc.
  rewrite (read_varint_encoded false uint64 pre (8 * f + wt) (payload ++ post) i
             keeps_lor_uint64 Htag Hi).
  rewrite uint64_small by done.
  rewrite tag_wire_type, tag_field_number by lia.
  rewrite int32_small by lia.
  destruct (Z.eqb_spec f 1); [lia|].
  destruct (Z.eqb_spec f 2); [lia|].
  change (sov_loop varint_turns (8 * f + wt) 0) with (sovDuration (8 * f + wt)).
  rewrite sov_length by done.
  replace (i + Z.of_nat (length (varint_bytes (8 * f + wt))) -
           Z.of_nat (length (varint_bytes (8 * f + wt)))) with i by lia.
  rewrite (goint_small i) by lia.
  rewrite slice_from_app by done.
  rewrite skipDuration_field by (done || lia).
  rewrite goint_small by lia.
  match goal with |- context [?a >? ?b] => destruct (Z.gtb_spec a b) end.
  - rewrite !length_app in *. lia.
  - rewrite length_app. f_equal. lia.
Qed.

Section unknown_fields.
Variable turn_of : nat → list Z → Z → Duration → turn.
Variable loop_of : nat → list Z → Z → Duration → Duration * outcome ().

Hypothesis loop_next : ∀ fuel data i m m' i',
  turn_of fuel data i m = Next m' i' →
  i < Z.of_nat (length data) →
  loop_of (S fuel) data i m = loop_of fuel data i' m'.
Hypothesis loop_end : ∀ fuel data m,
  loop_of fuel data (Z.of_nat (length data)) m = (m, Ok ()).
Hypothesis turn_seconds : ∀ fuel pre s post m i,
  - 2 ^ 63 ≤ s < 2 ^ 63 → i = Z.of_nat (length pre) →
  turn_of fuel (pre ++ (0x8 :: varint_bytes (uint64 s)) ++ post) i m
  = Next (mkDuration s (Nanos m)) (i + 1 + Z.of_nat (length (varint_bytes (uint64 s)))).
Hypothesis turn_nanos : ∀ fuel pre n post m i,
  - 2 ^ 31 ≤ n < 2 ^ 31 → i = Z.of_nat (length pre) →
  turn_of fuel (pre ++ (0x10 :: varint_bytes (uint64 n)) ++ post) i m
  = Next (mkDuration (Seconds m) n) (i + 1 + Z.of_nat (length (varint_bytes (uint64 n)))).
Hypothesis turn_unknown : ∀ fuel pre f wt payload post m i,
  3 ≤ f < 2 ^ 31 → field_payload wt payload →
  Z.of_nat (length (pre ++ (varint_bytes (8 * f + wt) ++ payload) ++ post)) < 2 ^ 62 →
  i = Z.of_nat (length pre) →
  turn_of (S fuel) (pre ++ (varint_bytes (8 * f + wt) ++ payload) ++ post) i m
  = Next m (i + Z.of_nat (length (varint_bytes (8 * f + wt) ++ payload))).

Lemma loop_with_unknown_field fuel m1 m2 m0 f wt payload :
  valid_message m1 → valid_message m2 →
  3 ≤ f < 2 ^ 31 → field_payload wt payload →
  Z.of_nat (length payload) < 2 ^ 61 →
  (5 ≤ fuel)%nat →
  loop_of fuel (wire_bytes m1 ++ (varint_bytes (8 * f + wt) ++ payload) ++ wire_bytes m2) 0 m0
  = (merge_fields m2 (merge_fields m1 m0), Ok ()).
Proof.
  intros Hm1 Hm2 Hf Hp Hlen Hfuel.
  pose proof (field_payload_wire_type _ _ Hp) as Hwt.
  pose proof (turns_of_le (Seconds m1)). pose proof (turns_of_le (Nanos m1)).
  pose proof (turns_of_le (Seconds m2)). pose proof (turns_of_le (Nanos m2)).
  set (k1 := (turns_of (Seconds m1) + turns_of (Nanos m1))%nat) in *.
  set (k2 := (turns_of (Seconds m2) + turns_of (Nanos m2))%nat) in *.
  set (unknown := varint_bytes (8 * f + wt) ++ payload) in *.
  set (F := (fuel - k1 - 1)%nat).
  assert (HF : (2 ≤ F)%nat) by (unfold F; lia).
  assert (Hl1 : Z.of_nat (length (wire_bytes m1)) ≤ 22).
  { rewrite <- Size_length. destruct (Marshal_size m1) as (? & _ & _ & _ & _ & ?). done. }
  assert (Hl2 : Z.of_nat (length (wire_bytes m2)) ≤ 22).
  { rewrite <- Size_length. destruct (Marshal_size m2) as (? & _ & _ & _ & _ & ?). done. }
  assert (Htl : Z.of_nat (length (varint_bytes (8 * f + wt))) ≤ 10).
  { rewrite <- sov_length by lia. apply sovDuration_spec. lia. }
  assert (Hne : (0 < length (varint_bytes (8 * f + wt)))%nat).
  { apply varint_bytes_nonempty. lia. }
  assert (Hul : length unknown = (length (varint_bytes (8 * f + wt)) + length payload)%nat).
  { unfold unknown. apply length_app. }
  (* the first message *)
  pose proof (loop_message turn_of loop_of loop_next turn_seconds turn_nanos
                (S F) [] m1 (unknown ++ wire_bytes m2) m0 Hm1) as Ha.
  cbn [app length] in Ha. change (Z.of_nat 0) with 0 in Ha. fold k1 in Ha.
  replace (k1 + S F)%nat with fuel in Ha by (unfold F; lia).
  (* the field in between *)
  pose proof (turn_unknown (F - 1) (wire_bytes m1) f wt payload (wire_bytes m2)
                (merge_fields m1 m0) (Z.of_nat (length (wire_bytes m1))) Hf Hp) as Hu.
  fold unknown in Hu.
  replace (S (F - 1)) with F in Hu by lia.
  specialize (Hu ltac:(rewrite !length_app; lia) eq_refl).
  apply loop_next in Hu; [|rewrite !length_app; lia].
  (* the second message *)
  pose proof (loop_message turn_of loop_of loop_next turn_seconds turn_nanos
                (F - k2) (wire_bytes m1 ++ unknown) m2 [] (merge_fields m1 m0) Hm2) as Hb.
  rewrite app_nil_r in Hb. fold k2 in Hb.
  replace (k2 + (F - k2))%nat with F in Hb by lia.
  rewrite loop_end in Hb.
  rewrite length_app, Nat2Z.inj_add in Hb.
  rewrite <- ?app_assoc in Hb. rewrite <- ?app_assoc.
  rewrite Ha, Hu, Hb. done.
Qed.
End unknown_fields.

(** X: fields with other numbers are stepped over. *)
Theorem Unmarshal_skips_unknown_field
    (m1 m2 m0 : Duration) (data1 data2 : list Z) (f wt : Z) (payload : list Z) (fuel : nat) :
  valid_message m1 → valid_message m2 →
  Marshal m1 = Some data1 → Marshal m2 = Some data2 →
  3 ≤ f < 2 ^ 31 → field_payload wt payload → Z.of_nat (length payload) < 2 ^ 61 →
  (5 ≤ fuel)%nat →
  TimestampUnmarshal fuel m0
    (data1 ++ (encodeVarintPopulateDuration [] (8 * f + wt) ++ payload) ++ data2)
  = (merge_fields m2 (merge_fields m1 m0), Ok ()) ∧
  DurationUnmarshal fuel m0
    (data1 ++ (encodeVarintPopulateDuration [] (8 * f + wt) ++ payload) ++ data2)
  = (merge_fields m2 (merge_fields m1 m0), Ok ()).
Proof.
  intros Hm1 Hm2 Hd1 Hd2 Hf Hp Hlen Hfuel.
  rewrite Marshal_wire_bytes in Hd1, Hd2. simplify_eq. split.
  - apply (loop_with_unknown_field TimestampUnmarshal_turn TimestampUnmarshal_loop
             Timestamp_loop_next Timestamp_loop_end Timestamp_turn_seconds
             Timestamp_turn_nanos Timestamp_turn_unknown); done.
  - apply (loop_with_unknown_field DurationUnmarshal_turn DurationUnmarshal_loop
             Duration_loop_next Duration_loop_end Duration_turn_seconds
             Duration_turn_nanos Duration_turn_unknown); done.
Qed.

Local Close Scope Z_scope.
